(** * go-chat-system: the connection pool and its command interpreter

    A shallow embedding of [src/main.go]: the [ConnectionPool] (roster and the
    two nickname maps), the event loop [Run], [handleCommand],
    [handleMessage], [sendAll] and [connectionFromNickOrName]; the sessions
    [runServer] feeds into the loop and the input loop of [runClient]; and
    the [handleMessage] of the two earlier revisions kept in
    [src/unnamed/part_001] and [src/unnamed/part_000].

    Go maps are [gmap]s.  A [net.Conn] is a handle with an identity of its own
    (Go compares the interface values) and a remote address.  Every
    [fmt.Fprintf] to a connection is recorded as a [Write] in the order the
    code performs it; [log.Printf] is not modelled.  An index expression that
    is out of range ends the run in [Panic], as the Go runtime does. *)

From Stdlib Require Import Ascii String.
From stdpp Require Import gmap strings list fin_maps.

(** ** The [strings] package, as far as the program uses it *)

Module strings.

(** [strings.HasPrefix]. *)
Definition HasPrefix (s prefix : string) : bool := String.prefix prefix s.

(** [strings.Split(s, sep)] for a separator of one byte (the program only
    splits on a single space): the pieces between the separators, so one
    more piece than there are separators and never an empty slice. *)
Fixpoint Split (s : string) (sep : ascii) : list string :=
  match s with
  | EmptyString => [EmptyString]
  | String c rest =>
      if Ascii.eqb c sep then EmptyString :: Split rest sep
      else match Split rest sep with
           | [] => [String c EmptyString]
           | p :: ps => String c p :: ps
           end
  end.

(** [strings.Join]. *)
Definition Join (elems : list string) (sep : string) : string :=
  String.concat sep elems.

(** Whether the byte [sep] occurs in [s]. *)
Fixpoint contains (s : string) (sep : ascii) : bool :=
  match s with
  | EmptyString => false
  | String c rest => Ascii.eqb c sep || contains rest sep
  end.

(** [strings.Index(s, sep)] for a separator of one byte: the position of its
    first occurrence, [-1] when there is none. *)
Fixpoint Index (s : string) (sep : ascii) : Z :=
  match s with
  | EmptyString => (-1)%Z
  | String c rest =>
      if Ascii.eqb c sep then 0%Z
      else let i := Index rest sep in
           if decide (i = (-1)%Z) then (-1)%Z else (i + 1)%Z
  end.

(** [strings.TrimPrefix]: [s] without the leading [prefix], [s] itself when
    it does not start with it. *)
Definition TrimPrefix (s prefix : string) : string :=
  if HasPrefix s prefix
  then substring (String.length prefix) (String.length s - String.length prefix) s
  else s.

(** [s] around the first occurrence of the byte [sep]. *)
Fixpoint cut (s : string) (sep : ascii) : option (string * string) :=
  match s with
  | EmptyString => None
  | String c rest =>
      if Ascii.eqb c sep then Some (EmptyString, rest)
      else match cut rest sep with
           | Some (before, after) => Some (String c before, after)
           | None => None
           end
  end.

(** [strings.SplitN(s, sep, n)] for a separator of one byte and [n >= 0]: at
    most [n] pieces, the last one the unsplit remainder. *)
Fixpoint SplitN (s : string) (sep : ascii) (n : nat) : list string :=
  match n with
  | 0 => []
  | S n' =>
      match n', cut s sep with
      | S _, Some (before, after) => before :: SplitN after sep n'
      | _, _ => [s]
      end
  end.

End strings.

(** The line feed that ends every line the server writes. *)
Definition nl : string := String "010"%char EmptyString.

Definition space : ascii := " "%char.

(** ** Data model *)

(** A [net.Conn]: [fd] tells two connections apart, [RemoteAddr] is
    [conn.RemoteAddr().String()]. *)
Record Conn := mkConn { fd : nat; RemoteAddr : string }.

#[global] Instance Conn_eq_dec : EqDecision Conn.
Proof. solve_decision. Defined.

Record Message := mkMessage { connection : Conn; message : string }.

(** The maps of [ConnectionPool]; its four channels are the [Event]s below. *)
Record ConnectionPool := mkPool {
  connections : gmap string Conn;
  nicks : gmap string string;
  rnicks : gmap string string
}.

Definition newConnectionPool : ConnectionPool :=
  {| connections := ∅; nicks := ∅; rnicks := ∅ |}.

(** One [fmt.Fprintf(conn, ...)]: the connection written to and the text. *)
Definition Write : Type := Conn * string.

Definition Fprintf (c : Conn) (text : string) : list Write := [(c, text)].

(** What a handler leaves behind: the pool and the writes it made, or a
    run-time panic (nothing in the program recovers from one). *)
Inductive Result :=
| Done (pool : ConnectionPool) (out : list Write)
| Panic.

(** ** The handlers *)

Definition getNames (pool : ConnectionPool) (m : Message) : string * string :=
  let name := RemoteAddr (connection m) in
  let nick := default "" (nicks pool !! name) in
  (name, if decide (nick = "") then name else nick).

Definition connectionFromNickOrName (pool : ConnectionPool) (name : string)
  : option Conn :=
  let name := match rnicks pool !! name with
              | Some tmp => tmp
              | None => name
              end in
  connections pool !! name.

(** The line [sendAll] writes to the roster entry [n]. *)
Definition sendAll_line (from text n : string) : string :=
  if decide (n = from) then "> " +:+ text +:+ nl
  else from +:+ "> " +:+ text +:+ nl.

(** The range loop visits the roster in the order of [map_to_list]; Go leaves
    the order open, and no statement below depends on it. *)
Definition sendAll (pool : ConnectionPool) (from text : string) : list Write :=
  map (λ '(n, c), (c, sendAll_line from text n)) (map_to_list (connections pool)).

Definition handleMessage (pool : ConnectionPool) (m : Message) : Result :=
  let '(name, nick) := getNames pool m in
  let text := message m in
  Done pool (sendAll pool nick text).

(** One entry of the [/who] listing, for the roster entry [(name, c)]. *)
Definition who_entry (pool : ConnectionPool) (m : Message) (name : string) (c : Conn)
  : string :=
  let name := match nicks pool !! name with
              | Some nick => nick +:+ " (" +:+ name +:+ ")"
              | None => name
              end in
  if decide (c = connection m) then name +:+ " *" else name.

Definition who_names (pool : ConnectionPool) (m : Message) : list string :=
  map (λ '(name, c), who_entry pool m name c) (map_to_list (connections pool)).

Definition handleCommand (pool : ConnectionPool) (m : Message) : Result :=
  let '(name, nick) := getNames pool m in
  let text := message m in
  match strings.Split text space with
  | [] => Panic
  | cmd :: parts =>
      if decide (cmd = "/nick") then
        if decide (1 < length parts) then
          Done pool
            (Fprintf (connection m)
               ("Nickname '" +:+ strings.Join parts " " +:+ "' cannot have spaces in" +:+ nl))
        else
          match parts !! 0%nat with
          | None => Panic
          | Some newNick =>
              match connectionFromNickOrName pool newNick with
              | Some remote =>
                  Done pool
                    (Fprintf (connection m)
                       ("Nickname '" +:+ newNick +:+ "' is already taken by "
                          +:+ RemoteAddr remote +:+ nl)
                     ++ Fprintf remote
                       ("User '" +:+ name +:+ "' tried to steal your nickname '"
                          +:+ newNick +:+ "'" +:+ nl))
              | None =>
                  let pool' :=
                    {| connections := connections pool;
                       nicks := <[name := newNick]> (nicks pool);
                       rnicks := <[newNick := RemoteAddr (connection m)]> (rnicks pool) |} in
                  Done pool'
                    (sendAll pool' name
                       ("Nickname changed from '" +:+ nick +:+ "' to '" +:+ newNick +:+ "'"))
              end
          end
      else if decide (cmd = "/privmsg") then
        match parts !! 0%nat with
        | None => Panic
        | Some rnick =>
            let text := strings.Join (drop 1 parts) " " in
            match connectionFromNickOrName pool rnick with
            | None =>
                Done pool
                  (Fprintf (connection m)
                     ("Couldn't find a person named '" +:+ rnick +:+ "'" +:+ nl))
            | Some remote =>
                if decide (remote = connection m) then
                  Done pool (Fprintf (connection m) ("You can't privmsg yourself" +:+ nl))
                else
                  Done pool
                    (Fprintf remote (nick +:+ " (private)> " +:+ text +:+ nl)
                     ++ Fprintf (connection m) ("Message sent" +:+ nl))
            end
        end
      else if decide (cmd = "/who") then
        Done pool
          (Fprintf (connection m) (strings.Join (who_names pool m) nl +:+ nl))
      else
        Done pool (Fprintf (connection m) ("Unknown command " +:+ cmd +:+ nl))
  end.

(** ** The event loop *)

(** What [Run] selects on: [connectc], [disconnectc], [broadcastc], [quitc]. *)
Inductive Event :=
| Register (conn : Conn)
| Unregister (conn : Conn)
| Inbound (m : Message)
| Shutdown.

(** One turn of the loop of [Run]. *)
Inductive Step :=
| Running (pool : ConnectionPool) (out : list Write)
| Stopped (pool : ConnectionPool) (closed : list Conn)
| Crashed.

(** The pool a turn leaves behind; a crashed process leaves none. *)
Definition pool_after (st : Step) : option ConnectionPool :=
  match st with
  | Running pool _ | Stopped pool _ => Some pool
  | Crashed => None
  end.

Definition register (pool : ConnectionPool) (conn : Conn) : ConnectionPool :=
  {| connections := <[RemoteAddr conn := conn]> (connections pool);
     nicks := nicks pool;
     rnicks := rnicks pool |}.

Definition unregister (pool : ConnectionPool) (conn : Conn) : ConnectionPool :=
  {| connections := delete (RemoteAddr conn) (connections pool);
     nicks := nicks pool;
     rnicks := rnicks pool |}.

Definition dispatch (pool : ConnectionPool) (m : Message) : Result :=
  if strings.HasPrefix (message m) "/" then handleCommand pool m
  else handleMessage pool m.

Definition step (pool : ConnectionPool) (ev : Event) : Step :=
  match ev with
  | Register conn => Running (register pool conn) []
  | Unregister conn => Running (unregister pool conn) []
  | Inbound m =>
      match dispatch pool m with
      | Done pool' out => Running pool' out
      | Panic => Crashed
      end
  | Shutdown => Stopped pool (map snd (map_to_list (connections pool)))
  end.

(** [Run] over the events it receives, in order: the pool and all writes so
    far; the loop ends at the first [Shutdown] or panic. *)
Fixpoint Run (pool : ConnectionPool) (evs : list Event) : Step :=
  match evs with
  | [] => Running pool []
  | ev :: evs' =>
      match step pool ev with
      | Running pool' out =>
          match Run pool' evs' with
          | Running pool'' out' => Running pool'' (out ++ out')
          | other => other
          end
      | other => other
      end
  end.

(** ** Properties the statements below are phrased with *)

(** Every roster entry is filed under the remote address of its own
    connection: [Run] only ever stores [conn] under [conn.RemoteAddr()]. *)
Definition roster_wf (pool : ConnectionPool) : Prop :=
  ∀ n c, connections pool !! n = Some c → RemoteAddr c = n.

(** The connection is the roster entry of its own address. *)
Definition registered (pool : ConnectionPool) (conn : Conn) : Prop :=
  connections pool !! RemoteAddr conn = Some conn.

(** A forward nickname binding exists only for identities in the roster. *)
Definition bindings_in_roster (pool : ConnectionPool) : Prop :=
  ∀ id nick, nicks pool !! id = Some nick → is_Some (connections pool !! id).

(** For every bound pair the reverse entry of the nickname is the identity. *)
Definition forward_reverse (pool : ConnectionPool) : Prop :=
  ∀ id nick, nicks pool !! id = Some nick → rnicks pool !! nick = Some id.

Definition nick_invariant (pool : ConnectionPool) : Prop :=
  bindings_in_roster pool ∧ forward_reverse pool.

(** Every write of [out] goes to the connection [c]. *)
Definition only_to (c : Conn) (out : list Write) : Prop :=
  ∀ w, w ∈ out → w.1 = c.

(** What the specification asks of the pool after [Unregister]: no roster
    entry, no forward binding, and no reverse binding of the former nickname. *)
Definition unregister_clears_bindings (pool : ConnectionPool) (conn : Conn) : Prop :=
  ∀ pool' out, step pool (Unregister conn) = Running pool' out →
    connections pool' !! RemoteAddr conn = None
    ∧ nicks pool' !! RemoteAddr conn = None
    ∧ ∀ nick, nicks pool !! RemoteAddr conn = Some nick → rnicks pool' !! nick = None.

(** The two framings of a relayed line (section 6 of the design: self-framed
    and attributed). *)
Definition self_framed (text : string) : string := "> " +:+ text +:+ nl.
Definition attributed (display text : string) : string :=
  display +:+ "> " +:+ text +:+ nl.

(** The connections of the roster other than the entry of [id]. *)
Definition others (pool : ConnectionPool) (id : string) : list Conn :=
  map snd (map_to_list (delete id (connections pool))).

(** The broadcast fan-out for a line of [conn]: one self-framed write to
    [conn] and one write attributed to [display] to each other roster entry. *)
Definition fan_out (pool : ConnectionPool) (conn : Conn) (display text : string)
  : list Write :=
  (conn, self_framed text)
    :: map (λ c, (c, attributed display text)) (others pool (RemoteAddr conn)).

(** What the specification asks of an Inbound event with a plain line: the
    writes are the fan-out under the display name of the sender, in some
    order. *)
Definition broadcast_fan_out (pool : ConnectionPool) (m : Message) : Prop :=
  ∀ pool' out, step pool (Inbound m) = Running pool' out →
    out ≡ₚ fan_out pool (connection m) (getNames pool m).2 (message m).

(** What the specification asks of the old nickname [old] of the sender once
    a nickname change has run: its reverse entry is gone and it no longer
    leads to the sender. *)
Definition nick_change_drops_old (pool : ConnectionPool) (m : Message) (old : string)
  : Prop :=
  ∀ pool' out, step pool (Inbound m) = Running pool' out →
    rnicks pool' !! old = None
    ∧ connectionFromNickOrName pool' old ≠ Some (connection m).

(** The [/who] entry as the specification words it: the identity, its
    nickname in parentheses when one is bound, and the mark on the
    requester's entry. *)
Definition who_entry_as_claimed (pool : ConnectionPool) (m : Message)
    (name : string) (c : Conn) : string :=
  let entry := match nicks pool !! name with
               | Some nick => name +:+ " (" +:+ nick +:+ ")"
               | None => name
               end in
  if decide (c = connection m) then entry +:+ " *" else entry.

(** What the specification asks of [/who]: one write, to the sender, listing
    the roster in some order with the entries worded as above. *)
Definition who_lists_as_claimed (pool : ConnectionPool) (m : Message) : Prop :=
  ∀ pool' out, step pool (Inbound m) = Running pool' out →
    ∃ entries,
      entries ≡ₚ map (λ '(name, c), who_entry_as_claimed pool m name c)
                   (map_to_list (connections pool))
      ∧ out = [(connection m, strings.Join entries nl +:+ nl)].

(** The text of a [/who] entry before the mark, as the code words it. *)
Definition who_base (pool : ConnectionPool) (name : string) : string :=
  match nicks pool !! name with
  | Some nick => nick +:+ " (" +:+ name +:+ ")"
  | None => name
  end.

(** ** Sample sessions *)

Definition addrA : string := "10.0.0.1:5000".
Definition addrB : string := "10.0.0.2:5000".
Definition addrC : string := "10.0.0.3:5000".
Definition connA : Conn := mkConn 1 addrA.
Definition connB : Conn := mkConn 2 addrB.
Definition connC : Conn := mkConn 3 addrC.
(** A later connection from the address of [connA]. *)
Definition connA' : Conn := mkConn 4 addrA.

(** A alone in the roster, under the nickname bob. *)
Definition pool_bob : ConnectionPool :=
  {| connections := {[ addrA := connA ]};
     nicks := {[ addrA := "bob" ]};
     rnicks := {[ "bob" := addrA ]} |}.

(** A (nickname bob) and B. *)
Definition pool_bob_B : ConnectionPool :=
  {| connections := <[ addrB := connB ]> {[ addrA := connA ]};
     nicks := {[ addrA := "bob" ]};
     rnicks := {[ "bob" := addrA ]} |}.

(** A, B and C, nobody with a nickname. *)
Definition pool_ABC : ConnectionPool :=
  {| connections := <[ addrC := connC ]> (<[ addrB := connB ]> {[ addrA := connA ]});
     nicks := ∅;
     rnicks := ∅ |}.

(** ** Sessions and the client loop *)

(** The events the goroutine of [runServer] sends for one accepted
    connection: [pool.Add], one [pool.Broadcast] per scanned line, and the
    deferred [pool.Delete] when the scanner stops. *)
Definition session (conn : Conn) (lines : list string) : list Event :=
  Register conn
    :: map (λ text, Inbound (mkMessage conn text)) lines ++ [Unregister conn].

(** What one event does to the roster when the loop goes on. *)
Definition roster_event (roster : gmap string Conn) (ev : Event) : gmap string Conn :=
  match ev with
  | Register conn => <[RemoteAddr conn := conn]> roster
  | Unregister conn => delete (RemoteAddr conn) roster
  | Inbound _ | Shutdown => roster
  end.

Definition roster_after (evs : list Event) (roster : gmap string Conn)
  : gmap string Conn :=
  foldl roster_event roster evs.

(** The second goroutine of [runClient]: what is written to the server for
    the lines scanned from standard input; the loop breaks at [quit]. *)
Fixpoint runClient_stdin (lines : list string) : list string :=
  match lines with
  | [] => []
  | text :: rest =>
      if decide (text = "quit") then []
      else (text +:+ nl) :: runClient_stdin rest
  end.

(** ** Earlier revisions of the message handler

    [src/unnamed/part_001] and [src/unnamed/part_000] have no
    [handleCommand]: their [handleMessage] recognises the commands by prefix
    and relays everything else itself.  The pool, [Run] and (in [part_000])
    [connectionFromNickOrName] are the ones above. *)

(** The line the closing range loop of both revisions writes to the roster
    entry [n]: [name] is the sender's address, [nick] the display name. *)
Definition relay_line (name nick text n : string) : string :=
  if decide (n = name) then "> " +:+ text +:+ nl
  else nick +:+ "> " +:+ text +:+ nl.

Definition relay (pool : ConnectionPool) (name nick text : string) : list Write :=
  map (λ '(n, c), (c, relay_line name nick text n)) (map_to_list (connections pool)).

Module part_001.

(** The deferred function writes both maps once the loop has run, so the
    loop still reads the old [pool.nicks[name]].  [remote] is nil when the
    reverse entry names an identity that has left the roster, and
    [remote.RemoteAddr()] then panics before anything is written. *)
Definition handleMessage (pool : ConnectionPool) (m : Message) : Result :=
  let name := RemoteAddr (connection m) in
  let text := message m in
  let display :=
    let nick := default "" (nicks pool !! name) in
    if decide (nick = "") then name else nick in
  if strings.HasPrefix text "/nick " then
    let nick := strings.TrimPrefix text "/nick " in
    if decide (default "" (rnicks pool !! nick) ≠ "") then
      match connections pool !! default "" (rnicks pool !! nick) with
      | None => Panic
      | Some remote =>
          Done pool
            (Fprintf (connection m)
               ("Nickname '" +:+ nick +:+ "' is already taken by "
                  +:+ RemoteAddr remote +:+ nl)
             ++ Fprintf remote
               ("User '" +:+ name +:+ "' tried to steal your nickname '"
                  +:+ nick +:+ "'" +:+ nl))
      end
    else
      let pool' :=
        {| connections := connections pool;
           nicks := <[name := nick]> (nicks pool);
           rnicks := <[nick := RemoteAddr (connection m)]> (rnicks pool) |} in
      Done pool' (relay pool name display ("Nickname changed to '" +:+ nick +:+ "'"))
  else Done pool (relay pool name display text).

End part_001.

Module part_000.

(** [handleMessage] from the [/privmsg] test on, with the [text] the
    nickname block has left. *)
Definition privmsg_or_relay (pool : ConnectionPool) (m : Message)
    (name nick text : string) : Result :=
  if strings.HasPrefix text "/privmsg" then
    let text := strings.TrimPrefix text "/privmsg " in
    match strings.SplitN text space 2 with
    | rnick :: text :: _ =>
        match connectionFromNickOrName pool rnick with
        | None =>
            Done pool
              (Fprintf (connection m)
                 ("Couldn't find a person named '" +:+ rnick +:+ "'"))
        | Some remote =>
            if decide (remote = connection m) then
              Done pool (Fprintf (connection m) "You can't privmsg yourself")
            else
              Done pool
                (Fprintf remote (nick +:+ " (private)> " +:+ text +:+ nl)
                 ++ Fprintf (connection m) ("Message sent" +:+ nl))
        end
    | _ => Panic
    end
  else Done pool (relay pool name nick text).

Definition handleMessage (pool : ConnectionPool) (m : Message) : Result :=
  let name := RemoteAddr (connection m) in
  let nick := default "" (nicks pool !! name) in
  let nick := if decide (nick = "") then name else nick in
  let text := message m in
  if strings.HasPrefix text "/nick " then
    let newNick := strings.TrimPrefix text "/nick " in
    if decide (strings.Index nick space ≠ (-1)%Z) then
      Done pool
        (Fprintf (connection m)
           ("Nickname '" +:+ newNick +:+ "' cannot have spaces in" +:+ nl))
    else
      match connectionFromNickOrName pool newNick with
      | Some remote =>
          Done pool
            (Fprintf (connection m)
               ("Nickname '" +:+ newNick +:+ "' is already taken by "
                  +:+ RemoteAddr remote +:+ nl)
             ++ Fprintf remote
               ("User '" +:+ name +:+ "' tried to steal your nickname '"
                  +:+ newNick +:+ "'" +:+ nl))
      | None =>
          let pool' :=
            {| connections := connections pool;
               nicks := <[name := newNick]> (nicks pool);
               rnicks := <[newNick := RemoteAddr (connection m)]> (rnicks pool) |} in
          privmsg_or_relay pool' m name nick
            ("Nickname changed to '" +:+ newNick +:+ "'")
      end
  else privmsg_or_relay pool m name nick text.

End part_000.

(** Every forward nickname has a reverse entry, and the identity of every
    reverse entry has a forward one (not necessarily each other's). *)
Definition nick_maps_linked (pool : ConnectionPool) : Prop :=
  (∀ id nick, nicks pool !! id = Some nick → is_Some (rnicks pool !! nick))
  ∧ (∀ nick id, rnicks pool !! nick = Some id → is_Some (nicks pool !! id)).

(** The text is a complete line: it ends with the line feed. *)
Definition newline_terminated (text : string) : Prop := ∃ s, text = s +:+ nl.

(** ** Facts about [Split] and [Join] *)

Section split_join.
Variable sep : ascii.

Lemma Split_nonempty s : strings.Split s sep ≠ [].
Proof.
  destruct s as [|c rest]; simpl; [done|].
  destruct (Ascii.eqb c sep); [done|].
  by destruct (strings.Split rest sep).
Qed.

(** A string without the separator is its own single piece. *)
Lemma Split_no_sep s : strings.contains s sep = false → strings.Split s sep = [s].
Proof.
  induction s as [|c rest IH]; simpl; [done|].
  intros [Hc Hrest]%orb_false_iff. rewrite Hc, (IH Hrest). done.
Qed.

(** Splitting at the first separator. *)
Lemma Split_app a b :
  strings.contains a sep = false →
  strings.Split (a +:+ String sep b) sep = a :: strings.Split b sep.
Proof.
  induction a as [|c rest IH]; simpl.
  - intros _. by rewrite Ascii.eqb_refl.
  - intros [Hc Hrest]%orb_false_iff. rewrite Hc, (IH Hrest). done.
Qed.

(** Joining the pieces with the separator gives the string back. *)
Lemma Join_Split s : strings.Join (strings.Split s sep) (String sep "") = s.
Proof.
  unfold strings.Join. induction s as [|c rest IH]; simpl; [done|].
  destruct (Ascii.eqb_spec c sep) as [->|Hne].
  - pose proof (Split_nonempty rest) as Hnil.
    destruct (strings.Split rest sep) as [|p ps]; [done|].
    simpl in *. by rewrite IH.
  - destruct (strings.Split rest sep) as [|p ps] eqn:E.
    + by destruct (Split_nonempty rest).
    + simpl in *. destruct ps; simpl in *; by rewrite <- IH.
Qed.

(** A line that splits into one piece is that piece. *)
Lemma Split_singleton s x : strings.Split s sep = [x] → s = x.
Proof. intros E. rewrite <- (Join_Split s), E. done. Qed.
End split_join.

(** ** Register and Unregister *)

Lemma pool_eq p q :
  connections p = connections q → nicks p = nicks q → rnicks p = rnicks q → p = q.
Proof. destruct p, q; simpl; by intros -> -> ->. Qed.

Lemma register_roster_wf pool conn : roster_wf pool → roster_wf (register pool conn).
Proof.
  intros Hwf n c; simpl. rewrite lookup_insert.
  case_decide; [by intros [= <-]|apply Hwf].
Qed.

Lemma unregister_roster_wf pool conn : roster_wf pool → roster_wf (unregister pool conn).
Proof.
  intros Hwf n c; simpl. rewrite lookup_delete.
  case_decide; [done|apply Hwf].
Qed.

(** C9: Unregister is idempotent.  Two Unregister events for one identity
    (whatever connections report it) leave the loop in the state one of them
    leaves it in, with nothing written; and an Unregister for an identity
    that has no roster entry leaves the pool as it was. *)
Theorem unregister_idempotent (pool : ConnectionPool) (c1 c2 : Conn) :
  RemoteAddr c1 = RemoteAddr c2 →
  Run pool [Unregister c1; Unregister c2] = Run pool [Unregister c1]
  ∧ (connections pool !! RemoteAddr c1 = None →
     Run pool [Unregister c1] = Running pool []).
Proof.
  intros Haddr. simpl. split.
  - f_equal. apply pool_eq; simpl; [|done..].
    rewrite Haddr. apply delete_delete_eq.
  - intros Hnone. f_equal. apply pool_eq; simpl; [|done..].
    by apply delete_id.
Qed.

Lemma unregister_idempotent_witness :
  Run pool_bob [Unregister connA; Unregister connA'] = Run pool_bob [Unregister connA]
  ∧ Run pool_ABC [Unregister (mkConn 9 "10.9.9.9:1")] = Running pool_ABC [].
Proof.
  split.
  - apply (unregister_idempotent pool_bob connA connA'). reflexivity.
  - apply (unregister_idempotent pool_ABC (mkConn 9 "10.9.9.9:1") (mkConn 9 "10.9.9.9:1"));
      [reflexivity | vm_compute; reflexivity].
Defined.

(** C1, as the code has it: Unregister removes the roster entry of the
    identity and nothing else; both nickname maps stay as they were.
    Afterwards the identity has no roster entry, a nickname whose reverse
    entry names the identity resolves to no connection, and the identity
    string resolves to no connection unless it is itself a key of the
    reverse map. *)
Theorem unregister_removes_roster_entry_only (pool : ConnectionPool) (conn : Conn) :
  let pool' := unregister pool conn in
  step pool (Unregister conn) = Running pool' []
  ∧ connections pool' = delete (RemoteAddr conn) (connections pool)
  ∧ connections pool' !! RemoteAddr conn = None
  ∧ nicks pool' = nicks pool
  ∧ rnicks pool' = rnicks pool
  ∧ (∀ nick, rnicks pool !! nick = Some (RemoteAddr conn) →
       connectionFromNickOrName pool' nick = None)
  ∧ (rnicks pool !! RemoteAddr conn = None →
       connectionFromNickOrName pool' (RemoteAddr conn) = None).
Proof.
  simpl. repeat split.
  - apply lookup_delete_eq.
  - intros nick Hr. unfold connectionFromNickOrName; simpl.
    rewrite Hr. apply lookup_delete_eq.
  - intros Hr. unfold connectionFromNickOrName; simpl.
    rewrite Hr. apply lookup_delete_eq.
Qed.

Lemma unregister_removes_roster_entry_only_witness :
  nicks (unregister pool_bob connA) = nicks pool_bob
  ∧ connectionFromNickOrName (unregister pool_bob connA) "bob" = None
  ∧ connectionFromNickOrName (unregister pool_bob connA) addrA = None.
Proof.
  pose proof (unregister_removes_roster_entry_only pool_bob connA)
    as (_ & _ & _ & Hn & _ & Hnick & Hid).
  split; [exact Hn|]. split.
  - apply Hnick. vm_compute. reflexivity.
  - apply Hid. vm_compute. reflexivity.
Defined.

(** C1 fails as stated: A is in the roster under the nickname bob; after
    Unregister(A) both bindings are still there. *)
Lemma unregister_keeps_bindings :
  ¬ unregister_clears_bindings pool_bob connA.
Proof.
  intros H. destruct (H _ _ eq_refl) as (_ & Hfwd & _).
  vm_compute in Hfwd. discriminate.
Qed.

(** [pool_bob] is what the loop reaches when A connects and picks bob. *)
Lemma pool_bob_reached :
  pool_after (Run newConnectionPool
                [Register connA; Inbound (mkMessage connA "/nick bob")])
  = Some pool_bob.
Proof. vm_compute. reflexivity. Qed.

(** C10: Register for an identity that already has a roster entry replaces
    the handle and rejects nothing: the roster holds the same identities, the
    entry of the identity is the new connection, and both nickname maps are
    untouched, so a nickname the identity held is now the display name of the
    new connection and resolves to it. *)
Theorem register_overwrites_entry (pool : ConnectionPool) (old conn : Conn) :
  connections pool !! RemoteAddr conn = Some old →
  let pool' := register pool conn in
  step pool (Register conn) = Running pool' []
  ∧ connections pool' !! RemoteAddr conn = Some conn
  ∧ dom (connections pool') = dom (connections pool)
  ∧ (∀ id, id ≠ RemoteAddr conn → connections pool' !! id = connections pool !! id)
  ∧ nicks pool' = nicks pool
  ∧ rnicks pool' = rnicks pool
  ∧ (∀ nick text, nicks pool !! RemoteAddr conn = Some nick → nick ≠ "" →
       getNames pool' (mkMessage conn text) = (RemoteAddr conn, nick))
  ∧ (∀ nick, rnicks pool !! nick = Some (RemoteAddr conn) →
       connectionFromNickOrName pool' nick = Some conn).
Proof.
  intros Hold. simpl. repeat split.
  - apply lookup_insert_eq.
  - apply dom_insert_lookup_L. by eexists.
  - intros id Hne. by apply lookup_insert_ne.
  - intros nick text Hn Hne. unfold getNames; simpl. rewrite Hn; simpl.
    by rewrite decide_False.
  - intros nick Hr. unfold connectionFromNickOrName; simpl.
    rewrite Hr. apply lookup_insert_eq.
Qed.

Lemma register_overwrites_entry_witness :
  step pool_bob (Register connA') = Running (register pool_bob connA') []
  ∧ connections (register pool_bob connA') !! addrA = Some connA'
  ∧ getNames (register pool_bob connA') (mkMessage connA' "hello") = (addrA, "bob")
  ∧ connectionFromNickOrName (register pool_bob connA') "bob" = Some connA'.
Proof.
  assert (Hold : connections pool_bob !! RemoteAddr connA' = Some connA)
    by (vm_compute; reflexivity).
  pose proof (register_overwrites_entry pool_bob connA connA' Hold)
    as (Hstep & Hnew & _ & _ & _ & _ & Hname & Hres).
  split; [exact Hstep|]. split; [exact Hnew|]. split.
  - apply Hname; [vm_compute; reflexivity | discriminate].
  - apply Hres. vm_compute. reflexivity.
Defined.

(** ** Broadcast *)

Lemma sendAll_line_self from text : sendAll_line from text from = self_framed text.
Proof. unfold sendAll_line. by rewrite decide_True. Qed.

Lemma sendAll_line_other from text n :
  n ≠ from → sendAll_line from text n = attributed from text.
Proof. intros Hne. unfold sendAll_line. by rewrite decide_False. Qed.

(** Every roster entry gets exactly one line of a [sendAll]. *)
Lemma sendAll_length pool from text :
  length (sendAll pool from text) = size (connections pool).
Proof. unfold sendAll. by rewrite length_map, length_map_to_list. Qed.

(** [sendAll] keyed on the address of a registered connection is the
    fan-out attributed to that address. *)
Lemma sendAll_registered pool conn text :
  registered pool conn →
  sendAll pool (RemoteAddr conn) text ≡ₚ fan_out pool conn (RemoteAddr conn) text.
Proof.
  intros Hreg. unfold sendAll, fan_out, others.
  rewrite <- (map_to_list_delete _ _ _ Hreg). simpl.
  rewrite sendAll_line_self. constructor.
  rewrite map_map. apply Permutation_refl'.
  apply map_ext_in. intros [n c] Hin%list_elem_of_In%elem_of_map_to_list. simpl.
  f_equal. apply sendAll_line_other. intros ->.
  by rewrite lookup_delete_eq in Hin.
Qed.

(** [sendAll] keyed on a string that is no roster key attributes every line,
    the one to the sender included. *)
Lemma sendAll_no_key pool from text :
  connections pool !! from = None →
  sendAll pool from text
  = map (λ '(n, c), (c, attributed from text)) (map_to_list (connections pool)).
Proof.
  intros Hnone. unfold sendAll. apply map_ext_in.
  intros [n c] Hin%list_elem_of_In%elem_of_map_to_list.
  f_equal. apply sendAll_line_other. intros ->. congruence.
Qed.

Lemma others_length pool conn :
  registered pool conn →
  S (length (others pool (RemoteAddr conn))) = size (connections pool).
Proof.
  intros Hreg. unfold others.
  rewrite length_map, <- length_map_to_list, <- (map_to_list_delete _ _ _ Hreg).
  done.
Qed.

(** X1: a plain line of a registered connection that has no nickname (or
    the empty one) is fanned out as designed: self-framed to the sender,
    attributed to its address for each of the N others, N + 1 writes in all. *)
Lemma broadcast_without_nickname pool conn text :
  registered pool conn →
  strings.HasPrefix text "/" = false →
  default "" (nicks pool !! RemoteAddr conn) = "" →
  ∃ out, step pool (Inbound (mkMessage conn text)) = Running pool out
    ∧ out ≡ₚ fan_out pool conn (RemoteAddr conn) text
    ∧ length out = S (length (others pool (RemoteAddr conn))).
Proof.
  intros Hreg Hplain Hnick. simpl. unfold dispatch; simpl. rewrite Hplain.
  unfold handleMessage, getNames; simpl. rewrite Hnick; simpl.
  eexists; split; [done|]. split.
  - by apply sendAll_registered.
  - by rewrite sendAll_length, others_length.
Qed.

Lemma broadcast_without_nickname_witness :
  ∃ out,
    step pool_ABC (Inbound (mkMessage connA "hello")) = Running pool_ABC out
    ∧ out ≡ₚ fan_out pool_ABC connA addrA "hello"
    ∧ length out = 3.
Proof.
  destruct (broadcast_without_nickname pool_ABC connA "hello")
    as (out & Hstep & Hperm & Hlen);
    [vm_compute; reflexivity | reflexivity | vm_compute; reflexivity |].
  exists out. split; [exact Hstep|]. split; [exact Hperm|].
  rewrite Hlen. vm_compute. reflexivity.
Defined.

(** A plain line of a sender whose nickname is no roster key is attributed
    to the nickname in every write, the one to the sender included. *)
Lemma broadcast_with_nickname pool conn nick text :
  strings.HasPrefix text "/" = false →
  nicks pool !! RemoteAddr conn = Some nick →
  nick ≠ "" →
  connections pool !! nick = None →
  step pool (Inbound (mkMessage conn text))
  = Running pool
      (map (λ '(n, c), (c, attributed nick text)) (map_to_list (connections pool))).
Proof.
  intros Hplain Hnick Hne Hkey. simpl. unfold dispatch; simpl. rewrite Hplain.
  unfold handleMessage, getNames; simpl. rewrite Hnick; simpl.
  rewrite decide_False by done. by rewrite sendAll_no_key.
Qed.

(** C4 at its failing input: A has the nickname bob and B is connected; a
    plain line of A is written to A attributed to bob, not self-framed, so
    the writes are not the fan-out of the specification. *)
Theorem broadcast_with_nickname_attributes_sender :
  step pool_bob_B (Inbound (mkMessage connA "hello"))
  = Running pool_bob_B
      [(connA, attributed "bob" "hello"); (connB, attributed "bob" "hello")]
  ∧ ¬ broadcast_fan_out pool_bob_B (mkMessage connA "hello").
Proof.
  assert (Heval : step pool_bob_B (Inbound (mkMessage connA "hello"))
                  = Running pool_bob_B
                      [(connA, attributed "bob" "hello");
                       (connB, attributed "bob" "hello")])
    by (vm_compute; reflexivity).
  split; [exact Heval|].
  intros H. specialize (H _ _ Heval). symmetry in H.
  assert (Hfan : fan_out pool_bob_B connA
                   (getNames pool_bob_B (mkMessage connA "hello")).2 "hello"
                 = [(connA, self_framed "hello"); (connB, attributed "bob" "hello")])
    by (vm_compute; reflexivity).
  simpl connection in H. simpl message in H. rewrite Hfan in H.
  apply Permutation_in with (x := (connA, self_framed "hello")) in H; [|by left].
  clear Heval Hfan. destruct H as [H|[H|[]]]; discriminate H.
Qed.

(** ** Commands *)

(** The event step of an inbound command line is [handleCommand]. *)
Lemma step_command pool m :
  strings.HasPrefix (message m) "/" = true →
  step pool (Inbound m)
  = match handleCommand pool m with
    | Done pool' out => Running pool' out
    | Panic => Crashed
    end.
Proof. intros Hcmd. unfold step, dispatch. by rewrite Hcmd. Qed.

(** The event step of a plain line is [handleMessage]. *)
Lemma step_plain pool m :
  strings.HasPrefix (message m) "/" = false →
  step pool (Inbound m)
  = Running pool (sendAll pool (getNames pool m).2 (message m)).
Proof. intros Hplain. unfold step, dispatch. by rewrite Hplain. Qed.

(** The branches of the switch in [handleCommand], by the pieces of the line. *)
Section branches.
Variables (pool : ConnectionPool) (m : Message).

Lemma handleCommand_nick_spaces p1 p2 parts :
  strings.Split (message m) space = "/nick" :: p1 :: p2 :: parts →
  handleCommand pool m
  = Done pool
      [(connection m,
        "Nickname '" +:+ strings.Join (p1 :: p2 :: parts) " "
          +:+ "' cannot have spaces in" +:+ nl)].
Proof.
  intros E. unfold handleCommand. rewrite E. cbn [getNames].
  rewrite decide_True by reflexivity.
  by rewrite decide_True by (simpl; lia).
Qed.

Lemma handleCommand_nick newNick :
  strings.Split (message m) space = ["/nick"; newNick] →
  handleCommand pool m
  = match connectionFromNickOrName pool newNick with
    | Some remote =>
        Done pool
          [(connection m,
            "Nickname '" +:+ newNick +:+ "' is already taken by "
              +:+ RemoteAddr remote +:+ nl);
           (remote,
            "User '" +:+ RemoteAddr (connection m)
              +:+ "' tried to steal your nickname '" +:+ newNick +:+ "'" +:+ nl)]
    | None =>
        let pool' :=
          {| connections := connections pool;
             nicks := <[RemoteAddr (connection m) := newNick]> (nicks pool);
             rnicks := <[newNick := RemoteAddr (connection m)]> (rnicks pool) |} in
        Done pool'
          (sendAll pool' (RemoteAddr (connection m))
             ("Nickname changed from '" +:+ (getNames pool m).2 +:+ "' to '"
                +:+ newNick +:+ "'"))
    end.
Proof.
  intros E. unfold handleCommand. rewrite E. cbn [getNames snd].
  rewrite decide_True by reflexivity.
  rewrite decide_False by (simpl; lia).
  cbn [lookup list_lookup]. by destruct (connectionFromNickOrName pool newNick).
Qed.

Lemma handleCommand_privmsg rnick rest :
  strings.Split (message m) space = "/privmsg" :: rnick :: rest →
  handleCommand pool m
  = match connectionFromNickOrName pool rnick with
    | None =>
        Done pool
          [(connection m, "Couldn't find a person named '" +:+ rnick +:+ "'" +:+ nl)]
    | Some remote =>
        if decide (remote = connection m)
        then Done pool [(connection m, "You can't privmsg yourself" +:+ nl)]
        else Done pool
               [(remote,
                 (getNames pool m).2 +:+ " (private)> "
                   +:+ strings.Join rest " " +:+ nl);
                (connection m, "Message sent" +:+ nl)]
    end.
Proof.
  intros E. unfold handleCommand. rewrite E. cbn [getNames snd].
  rewrite decide_False by discriminate. rewrite decide_True by reflexivity.
  cbn [lookup list_lookup drop].
  destruct (connectionFromNickOrName pool rnick) as [remote|]; [|done].
  by destruct (decide (remote = connection m)).
Qed.

Lemma handleCommand_who parts :
  strings.Split (message m) space = "/who" :: parts →
  handleCommand pool m
  = Done pool [(connection m, strings.Join (who_names pool m) nl +:+ nl)].
Proof.
  intros E. unfold handleCommand. rewrite E. cbn [getNames].
  do 2 (rewrite decide_False by discriminate).
  by rewrite decide_True by reflexivity.
Qed.

Lemma handleCommand_unknown cmd parts :
  strings.Split (message m) space = cmd :: parts →
  cmd ≠ "/nick" → cmd ≠ "/privmsg" → cmd ≠ "/who" →
  handleCommand pool m
  = Done pool [(connection m, "Unknown command " +:+ cmd +:+ nl)].
Proof.
  intros E H1 H2 H3. unfold handleCommand. rewrite E. cbn [getNames].
  by rewrite !decide_False by done.
Qed.

(** With no argument after [/nick] or [/privmsg] the handler panics. *)
Lemma handleCommand_no_argument cmd :
  strings.Split (message m) space = [cmd] →
  cmd = "/nick" ∨ cmd = "/privmsg" →
  handleCommand pool m = Panic.
Proof.
  intros E [-> | ->]; unfold handleCommand; rewrite E; cbn [getNames].
  - rewrite decide_True by reflexivity. by rewrite decide_False by (simpl; lia).
  - rewrite decide_False by discriminate. by rewrite decide_True by reflexivity.
Qed.
End branches.

(** The bare command words index [parts[0]] of an empty slice. *)
Lemma nick_bare_panics pool conn :
  step pool (Inbound (mkMessage conn "/nick")) = Crashed.
Proof.
  rewrite step_command by reflexivity.
  by rewrite (handleCommand_no_argument _ _ "/nick") by (done || by left).
Qed.

Lemma privmsg_bare_panics pool conn :
  step pool (Inbound (mkMessage conn "/privmsg")) = Crashed.
Proof.
  rewrite step_command by reflexivity.
  by rewrite (handleCommand_no_argument _ _ "/privmsg") by (done || by right).
Qed.

(** C5 at its failing inputs: with no argument at all the handler indexes
    an empty slice and the loop dies; with an empty argument the empty
    nickname is bound and announced instead of refused. *)
Theorem nick_without_argument :
  step pool_bob_B (Inbound (mkMessage connB "/nick")) = Crashed
  ∧ step pool_bob_B (Inbound (mkMessage connB "/nick "))
    = Running
        {| connections := connections pool_bob_B;
           nicks := <[addrB := ""]> (nicks pool_bob_B);
           rnicks := <["" := addrB]> (rnicks pool_bob_B) |}
        [(connA, attributed addrB "Nickname changed from '10.0.0.2:5000' to ''");
         (connB, self_framed "Nickname changed from '10.0.0.2:5000' to ''")].
Proof. split; vm_compute; reflexivity. Qed.

(** C8: [/privmsg target text].  The target is looked up as a nickname
    first and as a raw identity otherwise.  Without a target, or when the
    target is the sender's own connection, the sender alone gets a notice;
    else the target gets the private line under the sender's display name,
    the sender gets the confirmation, and nothing else is written.  The pool
    is unchanged in every case. *)
Theorem privmsg_delivery (pool : ConnectionPool) (conn : Conn) (target text : string) :
  strings.contains target space = false →
  let m := mkMessage conn ("/privmsg " +:+ target +:+ " " +:+ text) in
  let resolved := match rnicks pool !! target with
                  | Some id => connections pool !! id
                  | None => connections pool !! target
                  end in
  step pool (Inbound m)
  = Running pool
      match resolved with
      | None => [(conn, "Couldn't find a person named '" +:+ target +:+ "'" +:+ nl)]
      | Some remote =>
          if decide (remote = conn)
          then [(conn, "You can't privmsg yourself" +:+ nl)]
          else [(remote, (getNames pool m).2 +:+ " (private)> " +:+ text +:+ nl);
                (conn, "Message sent" +:+ nl)]
      end.
Proof.
  intros Hsp m resolved.
  assert (E : strings.Split (message m) space
              = "/privmsg" :: target :: strings.Split text space).
  { subst m. simpl message.
    change ("/privmsg " +:+ target +:+ " " +:+ text)
      with ("/privmsg" +:+ String space (target +:+ String space text)).
    rewrite (Split_app space "/privmsg") by reflexivity.
    by rewrite (Split_app space target text Hsp). }
  rewrite step_command by reflexivity.
  rewrite (handleCommand_privmsg pool m _ _ E).
  change (strings.Join (strings.Split text space) " ")
    with (strings.Join (strings.Split text space) (String space "")).
  rewrite Join_Split. subst resolved. unfold connectionFromNickOrName.
  change (connection m) with conn.
  destruct (rnicks pool !! target) as [id|];
    (destruct (connections pool !! _) as [remote|]; [|done]);
    by destruct (decide (remote = conn)).
Qed.

Lemma privmsg_delivery_witness :
  step pool_bob_B (Inbound (mkMessage connB "/privmsg bob hi there"))
  = Running pool_bob_B
      [(connA, "10.0.0.2:5000 (private)> hi there" +:+ nl);
       (connB, "Message sent" +:+ nl)].
Proof.
  generalize (privmsg_delivery pool_bob_B connB "bob" "hi there" eq_refl).
  vm_compute. exact (λ H, H).
Defined.

(** The pieces of [/nick newNick] for a single-token argument. *)
Lemma Split_nick newNick :
  strings.contains newNick space = false →
  strings.Split ("/nick " +:+ newNick) space = ["/nick"; newNick].
Proof.
  intros Hsp.
  change ("/nick " +:+ newNick) with ("/nick" +:+ String space newNick).
  rewrite (Split_app space "/nick") by reflexivity.
  by rewrite (Split_no_sep space newNick Hsp).
Qed.

(** C6, as the code has it: a successful [/nick newNick] of a registered
    identity that had the nickname [old] installs the new forward and
    reverse bindings and touches no other entry, so the reverse entry of
    [old] stays and [old] still resolves to the sender; the change is
    announced by [sendAll] keyed on the raw identity: self-framed to the
    sender, attributed to the raw identity for the others. *)
Theorem nick_change_keeps_old_reverse
    (pool : ConnectionPool) (conn : Conn) (old newNick : string) :
  strings.contains newNick space = false →
  registered pool conn →
  nicks pool !! RemoteAddr conn = Some old →
  connectionFromNickOrName pool newNick = None →
  let m := mkMessage conn ("/nick " +:+ newNick) in
  ∃ pool' out,
    step pool (Inbound m) = Running pool' out
    ∧ connections pool' = connections pool
    ∧ nicks pool' = <[RemoteAddr conn := newNick]> (nicks pool)
    ∧ rnicks pool' = <[newNick := RemoteAddr conn]> (rnicks pool)
    ∧ connectionFromNickOrName pool' newNick = Some conn
    ∧ (rnicks pool !! old = Some (RemoteAddr conn) →
         rnicks pool' !! old = Some (RemoteAddr conn)
         ∧ connectionFromNickOrName pool' old = Some conn)
    ∧ out ≡ₚ fan_out pool conn (RemoteAddr conn)
               ("Nickname changed from '" +:+ (getNames pool m).2 +:+ "' to '"
                  +:+ newNick +:+ "'").
Proof.
  intros Hsp Hreg Hold Hfree m.
  rewrite step_command by reflexivity.
  rewrite (handleCommand_nick pool m newNick (Split_nick newNick Hsp)), Hfree.
  change (connection m) with conn.
  do 2 eexists. split; [reflexivity|]. simpl.
  assert (Hne : ∀ k, rnicks pool !! k = Some (RemoteAddr conn) → newNick ≠ k).
  { intros k Hk <-. unfold connectionFromNickOrName in Hfree.
    rewrite Hk in Hfree. unfold registered in Hreg. congruence. }
  repeat split.
  - unfold connectionFromNickOrName; simpl. by rewrite lookup_insert_eq.
  - rewrite lookup_insert_ne; [done|]. by apply Hne.
  - unfold connectionFromNickOrName; simpl.
    rewrite lookup_insert_ne by (by apply Hne). by rewrite H.
  - set (pool' := mkPool _ _ _).
    change (fan_out pool conn) with (fan_out pool' conn).
    by apply sendAll_registered.
Qed.

Lemma nick_change_keeps_old_reverse_witness :
  ∃ pool' out,
    step pool_bob_B (Inbound (mkMessage connA "/nick alice")) = Running pool' out
    ∧ nicks pool' !! addrA = Some "alice"
    ∧ rnicks pool' !! "bob" = Some addrA
    ∧ connectionFromNickOrName pool' "bob" = Some connA
    ∧ out ≡ₚ [(connA, self_framed "Nickname changed from 'bob' to 'alice'");
              (connB, attributed addrA "Nickname changed from 'bob' to 'alice'")].
Proof.
  destruct (nick_change_keeps_old_reverse pool_bob_B connA "bob" "alice")
    as (pool' & out & Hstep & _ & Hn & _ & _ & Hold & Hout);
    [reflexivity | vm_compute; reflexivity | vm_compute; reflexivity
    | vm_compute; reflexivity |].
  exists pool', out. split; [exact Hstep|]. split.
  - rewrite Hn. apply lookup_insert_eq.
  - destruct Hold as [Hr Hres]; [vm_compute; reflexivity|].
    split; [exact Hr|]. split; [exact Hres|].
    assert (Hfan : fan_out pool_bob_B connA (RemoteAddr connA)
                     ("Nickname changed from '"
                        +:+ (getNames pool_bob_B (mkMessage connA "/nick alice")).2
                        +:+ "' to '" +:+ "alice" +:+ "'")
                   = [(connA, self_framed "Nickname changed from 'bob' to 'alice'");
                      (connB, attributed addrA
                                "Nickname changed from 'bob' to 'alice'")])
      by (vm_compute; reflexivity).
    rewrite <- Hfan. exact Hout.
Defined.

(** C6 fails as stated: A changes from bob to alice; the reverse entry of
    bob is still there and bob still resolves to A. *)
Lemma nick_change_leaves_old_reverse :
  ¬ nick_change_drops_old pool_bob (mkMessage connA "/nick alice") "bob".
Proof.
  intros H.
  assert (Heval : step pool_bob (Inbound (mkMessage connA "/nick alice"))
                  = Running
                      {| connections := connections pool_bob;
                         nicks := <[addrA := "alice"]> (nicks pool_bob);
                         rnicks := <["alice" := addrA]> (rnicks pool_bob) |}
                      [(connA, self_framed "Nickname changed from 'bob' to 'alice'")])
    by (vm_compute; reflexivity).
  destruct (H _ _ Heval) as [Hr _]. simpl in Hr.
  rewrite lookup_insert_ne in Hr by discriminate.
  unfold pool_bob in Hr; simpl in Hr. by rewrite lookup_singleton_eq in Hr.
Qed.

Lemma append_empty_r (s : string) : s +:+ "" = s.
Proof. induction s as [|c s IH]; [done|]. change (String c (s +:+ "") = String c s). by rewrite IH. Qed.

(** In a well-formed roster a connection is the entry of one key only. *)
Lemma roster_entry_key pool conn id c :
  roster_wf pool → registered pool conn →
  connections pool !! id = Some c →
  c = conn ↔ id = RemoteAddr conn.
Proof.
  intros Hwf Hreg Hc. split.
  - intros ->. symmetry. by apply Hwf.
  - intros ->. unfold registered in Hreg. congruence.
Qed.

(** C7, as the code has it: [/who] writes one text to the sender and leaves
    the pool alone; the text is one line per roster entry, each the nickname
    followed by the identity in parentheses when a nickname is bound and the
    bare identity otherwise, with " *" appended to the entry of the
    requester and to no other. *)
Theorem who_listing (pool : ConnectionPool) (conn : Conn) :
  roster_wf pool →
  registered pool conn →
  let m := mkMessage conn "/who" in
  let entry := λ '(id, _), who_base pool id
                 +:+ (if decide (id = RemoteAddr conn) then " *" else "") in
  step pool (Inbound m)
  = Running pool
      [(conn, strings.Join (map entry (map_to_list (connections pool))) nl +:+ nl)]
  ∧ length (map entry (map_to_list (connections pool))) = size (connections pool).
Proof.
  intros Hwf Hreg m entry. split.
  - rewrite step_command by reflexivity.
    rewrite (handleCommand_who pool m []) by reflexivity.
    enough (who_names pool m = map entry (map_to_list (connections pool)))
      as -> by done.
    unfold who_names. apply map_ext_in.
    intros [id c] Hin%list_elem_of_In%elem_of_map_to_list.
    unfold who_entry, entry. fold (who_base pool id). simpl connection.
    pose proof (roster_entry_key pool conn id c Hwf Hreg Hin) as Hkey.
    destruct (decide (c = conn)) as [Hc|Hc].
    + by rewrite decide_True by (by apply Hkey).
    + rewrite decide_False by (by rewrite <- Hkey). by rewrite append_empty_r.
  - by rewrite length_map, length_map_to_list.
Qed.

Lemma who_listing_witness :
  step pool_bob_B (Inbound (mkMessage connB "/who"))
  = Running pool_bob_B
      [(connB, "bob (10.0.0.1:5000)" +:+ nl +:+ "10.0.0.2:5000 *" +:+ nl)].
Proof.
  assert (Hwf : roster_wf pool_bob_B).
  { intros n c. unfold pool_bob_B; simpl.
    rewrite lookup_insert. case_decide; [by intros [= <-]|].
    rewrite lookup_singleton. case_decide; [by intros [= <-]|done]. }
  assert (Hreg : registered pool_bob_B connB) by (vm_compute; reflexivity).
  destruct (who_listing pool_bob_B connB Hwf Hreg) as [Hstep _].
  rewrite Hstep. vm_compute. reflexivity.
Defined.

(** C7 fails as stated: A, under the nickname bob, asks [/who]; its entry is
    worded nickname first with the identity in parentheses, not the identity
    with the nickname in parentheses. *)
Lemma who_puts_nickname_first :
  ¬ who_lists_as_claimed pool_bob (mkMessage connA "/who").
Proof.
  intros H.
  assert (Heval : step pool_bob (Inbound (mkMessage connA "/who"))
                  = Running pool_bob [(connA, "bob (10.0.0.1:5000) *" +:+ nl)])
    by (vm_compute; reflexivity).
  destruct (H _ _ Heval) as (entries & Hperm & Hout).
  assert (Hclaimed : map (λ '(name, c),
                       who_entry_as_claimed pool_bob (mkMessage connA "/who") name c)
                       (map_to_list (connections pool_bob))
                     = ["10.0.0.1:5000 (bob) *"])
    by (vm_compute; reflexivity).
  rewrite Hclaimed in Hperm. symmetry in Hperm.
  apply Permutation_length_1_inv in Hperm.
  subst entries. clear Heval Hclaimed H. discriminate Hout.
Qed.

(** ** Errors stay with the event that caused them *)

(** A command line other than the bare words [/nick] and [/privmsg] is
    handled without a panic. *)
Lemma handleCommand_done pool m :
  message m ≠ "/nick" → message m ≠ "/privmsg" →
  ∃ pool' out, handleCommand pool m = Done pool' out.
Proof.
  intros Hnick Hpriv.
  destruct (strings.Split (message m) space) as [|cmd parts] eqn:E.
  { by destruct (Split_nonempty space (message m)). }
  destruct (decide (cmd = "/nick")) as [->|Hc1].
  { destruct parts as [|p1 [|p2 parts]].
    - by apply Split_singleton in E.
    - rewrite (handleCommand_nick pool m p1 E).
      destruct (connectionFromNickOrName pool p1); eauto.
    - rewrite (handleCommand_nick_spaces pool m p1 p2 parts E). eauto. }
  destruct (decide (cmd = "/privmsg")) as [->|Hc2].
  { destruct parts as [|target rest].
    - by apply Split_singleton in E.
    - rewrite (handleCommand_privmsg pool m target rest E).
      destruct (connectionFromNickOrName pool target) as [remote|]; [|eauto].
      destruct (decide (remote = connection m)); eauto. }
  destruct (decide (cmd = "/who")) as [->|Hc3].
  { rewrite (handleCommand_who pool m parts E). eauto. }
  rewrite (handleCommand_unknown pool m cmd parts E Hc1 Hc2 Hc3). eauto.
Qed.

(** C3, as the code has it: an inbound line other than the bare words
    [/nick] and [/privmsg] is processed to the end.  A nickname of several
    words, an unknown private-message target, a private message to oneself
    and an unknown command each write one notice, to the sender, and leave
    the pool as it was; a nickname that is taken leaves the pool as it was
    and writes two notices, one to the sender and one to the connection the
    name resolves to. *)
Theorem command_errors_are_local (pool : ConnectionPool) (m : Message) :
  message m ≠ "/nick" →
  message m ≠ "/privmsg" →
  (∃ pool' out, step pool (Inbound m) = Running pool' out)
  ∧ (strings.HasPrefix (message m) "/" = true →
     ∀ cmd parts, strings.Split (message m) space = cmd :: parts →
       (cmd = "/nick" → 1 < length parts →
          step pool (Inbound m)
          = Running pool
              [(connection m,
                "Nickname '" +:+ strings.Join parts " "
                  +:+ "' cannot have spaces in" +:+ nl)])
       ∧ (cmd = "/nick" → ∀ newNick owner,
            parts = [newNick] →
            connectionFromNickOrName pool newNick = Some owner →
            step pool (Inbound m)
            = Running pool
                [(connection m,
                  "Nickname '" +:+ newNick +:+ "' is already taken by "
                    +:+ RemoteAddr owner +:+ nl);
                 (owner,
                  "User '" +:+ RemoteAddr (connection m)
                    +:+ "' tried to steal your nickname '" +:+ newNick
                    +:+ "'" +:+ nl)])
       ∧ (cmd = "/privmsg" → ∀ target rest,
            parts = target :: rest →
            connectionFromNickOrName pool target = None →
            step pool (Inbound m)
            = Running pool
                [(connection m,
                  "Couldn't find a person named '" +:+ target +:+ "'" +:+ nl)])
       ∧ (cmd = "/privmsg" → ∀ target rest,
            parts = target :: rest →
            connectionFromNickOrName pool target = Some (connection m) →
            step pool (Inbound m)
            = Running pool [(connection m, "You can't privmsg yourself" +:+ nl)])
       ∧ (cmd ≠ "/nick" → cmd ≠ "/privmsg" → cmd ≠ "/who" →
            step pool (Inbound m)
            = Running pool [(connection m, "Unknown command " +:+ cmd +:+ nl)])).
Proof.
  intros Hnick Hpriv. split.
  - destruct (strings.HasPrefix (message m) "/") eqn:Hcmd.
    + rewrite (step_command pool m Hcmd).
      destruct (handleCommand_done pool m Hnick Hpriv) as (pool' & out & ->).
      eauto.
    + rewrite (step_plain pool m Hcmd). eauto.
  - intros Hcmd cmd parts E. rewrite (step_command pool m Hcmd).
    repeat split.
    + intros -> Hlen. destruct parts as [|p1 [|p2 parts]]; simpl in Hlen; [lia..|].
      by rewrite (handleCommand_nick_spaces pool m p1 p2 parts E).
    + intros -> newNick owner -> Hres.
      by rewrite (handleCommand_nick pool m newNick E), Hres.
    + intros -> target rest -> Hres.
      by rewrite (handleCommand_privmsg pool m target rest E), Hres.
    + intros -> target rest -> Hres.
      rewrite (handleCommand_privmsg pool m target rest E), Hres.
      by rewrite decide_True.
    + intros Hc1 Hc2 Hc3.
      by rewrite (handleCommand_unknown pool m cmd parts E Hc1 Hc2 Hc3).
Qed.

Lemma command_errors_are_local_witness :
  step pool_bob_B (Inbound (mkMessage connB "/nick bob"))
  = Running pool_bob_B
      [(connB, "Nickname 'bob' is already taken by 10.0.0.1:5000" +:+ nl);
       (connA, "User '10.0.0.2:5000' tried to steal your nickname 'bob'" +:+ nl)].
Proof.
  destruct (command_errors_are_local pool_bob_B (mkMessage connB "/nick bob"))
    as [_ Hcases]; [discriminate | discriminate |].
  destruct (Hcases eq_refl "/nick" ["bob"] eq_refl) as (_ & Htaken & _).
  apply (Htaken eq_refl "bob" connA eq_refl). vm_compute. reflexivity.
Defined.

(** C3 fails as stated: B asks for the nickname bob, which A holds; the
    pool is unchanged, but one of the two notices goes to A. *)
Lemma collision_notifies_owner :
  ∃ out,
    step pool_bob_B (Inbound (mkMessage connB "/nick bob")) = Running pool_bob_B out
    ∧ ¬ only_to connB out.
Proof.
  eexists. split; [vm_compute; reflexivity|].
  intros H. specialize (H (connA, _) ltac:(right; left)). discriminate H.
Qed.

(** ** The nickname invariant *)

(** A command changes the pool only by a successful [/nick]. *)
Lemma handleCommand_pool pool m pool' out :
  handleCommand pool m = Done pool' out →
  pool' = pool
  ∨ ∃ newNick,
      connectionFromNickOrName pool newNick = None
      ∧ pool' = {| connections := connections pool;
                   nicks := <[RemoteAddr (connection m) := newNick]> (nicks pool);
                   rnicks := <[newNick := RemoteAddr (connection m)]> (rnicks pool) |}.
Proof.
  unfold handleCommand. cbn [getNames].
  destruct (strings.Split (message m) space) as [|cmd parts]; [done|].
  repeat case_decide; repeat case_match; intros [= <- <-]; eauto.
Qed.

(** A successful [/nick] of an identity in the roster keeps the invariant. *)
Lemma nick_preserves_invariant pool id newNick :
  nick_invariant pool →
  is_Some (connections pool !! id) →
  connectionFromNickOrName pool newNick = None →
  nick_invariant {| connections := connections pool;
                    nicks := <[id := newNick]> (nicks pool);
                    rnicks := <[newNick := id]> (rnicks pool) |}.
Proof.
  intros [Hroster Hfr] Hid Hfree. split.
  - intros i n; simpl. rewrite lookup_insert.
    case_decide as Hi; [by subst|]. apply Hroster.
  - intros i n; simpl. rewrite lookup_insert.
    case_decide as Hi; [intros [= <-]; subst; apply lookup_insert_eq|].
    intros Hn. rewrite lookup_insert_ne; [by apply Hfr|].
    intros <-. unfold connectionFromNickOrName in Hfree.
    rewrite (Hfr _ _ Hn) in Hfree.
    destruct (Hroster _ _ Hn) as [c Hc]. congruence.
Qed.

(** Every event keeps the roster well-formed. *)
Lemma step_roster_wf pool ev pool' :
  roster_wf pool → pool_after (step pool ev) = Some pool' → roster_wf pool'.
Proof.
  intros Hwf Hstep. destruct ev as [conn|conn|m|]; simpl in Hstep.
  - injection Hstep as <-. by apply register_roster_wf.
  - injection Hstep as <-. by apply unregister_roster_wf.
  - unfold dispatch in Hstep.
    destruct (strings.HasPrefix (message m) "/").
    + destruct (handleCommand pool m) as [p out|] eqn:Hcmd; [|done].
      injection Hstep as ->.
      by destruct (handleCommand_pool _ _ _ _ Hcmd) as [->|(newNick & _ & ->)].
    + unfold handleMessage in Hstep. cbn [getNames] in Hstep.
      by injection Hstep as <-.
  - by injection Hstep as <-.
Qed.

(** C2, as the code has it: Register, Shutdown and every Inbound event of a
    sender that is in the roster keep the invariant (a forward binding only
    for identities in the roster, and the reverse entry of every bound
    nickname naming its identity).  Unregister keeps the two maps as they
    are, so the forward and reverse entries stay consistent, and every
    binding but the one of the identity that left still belongs to an
    identity in the roster. *)
Theorem events_and_nick_invariant (pool pool' : ConnectionPool) (ev : Event) :
  nick_invariant pool →
  (∀ m, ev = Inbound m → is_Some (connections pool !! RemoteAddr (connection m))) →
  pool_after (step pool ev) = Some pool' →
  match ev with
  | Unregister conn =>
      forward_reverse pool'
      ∧ nicks pool' = nicks pool
      ∧ rnicks pool' = rnicks pool
      ∧ ∀ id nick, nicks pool' !! id = Some nick → id ≠ RemoteAddr conn →
          is_Some (connections pool' !! id)
  | _ => nick_invariant pool'
  end.
Proof.
  intros Hinv Hsender Hstep. destruct ev as [conn|conn|m|]; simpl in Hstep.
  - injection Hstep as <-. destruct Hinv as [Hroster Hfr]. split; [|done].
    intros id nick Hn; simpl. rewrite lookup_insert.
    case_decide; [by eexists|by apply (Hroster id nick)].
  - injection Hstep as <-. destruct Hinv as [Hroster Hfr].
    repeat split; [done|].
    intros id nick Hn Hne; simpl. rewrite lookup_delete_ne by done.
    by apply (Hroster id nick).
  - unfold dispatch in Hstep.
    destruct (strings.HasPrefix (message m) "/").
    + destruct (handleCommand pool m) as [p out|] eqn:Hcmd; [|done].
      injection Hstep as ->.
      destruct (handleCommand_pool _ _ _ _ Hcmd) as [->|(newNick & Hfree & ->)];
        [done|].
      apply nick_preserves_invariant; [done| |done]. by apply Hsender.
    + unfold handleMessage in Hstep. cbn [getNames] in Hstep.
      by injection Hstep as <-.
  - by injection Hstep as <-.
Qed.

Lemma pool_bob_B_invariant : nick_invariant pool_bob_B.
Proof.
  split; intros id nick; unfold pool_bob_B; simpl;
    intros [<- <-]%lookup_singleton_Some.
  - eexists. rewrite lookup_insert_ne by discriminate. apply lookup_singleton_eq.
  - apply lookup_singleton_eq.
Qed.

Lemma pool_bob_invariant : nick_invariant pool_bob.
Proof.
  split; intros id nick; unfold pool_bob; simpl;
    intros [<- <-]%lookup_singleton_Some.
  - eexists. apply lookup_singleton_eq.
  - apply lookup_singleton_eq.
Qed.

Lemma events_and_nick_invariant_witness :
  nick_invariant
    {| connections := connections pool_bob_B;
       nicks := <[addrB := "carol"]> (nicks pool_bob_B);
       rnicks := <["carol" := addrB]> (rnicks pool_bob_B) |}.
Proof.
  apply (events_and_nick_invariant pool_bob_B _
           (Inbound (mkMessage connB "/nick carol")) pool_bob_B_invariant).
  - intros m [= <-]. eexists. vm_compute. reflexivity.
  - vm_compute. reflexivity.
Defined.

(** C2 fails as stated: with A under the nickname bob the invariant holds;
    after Unregister(A) the binding of A is still there and A is not in the
    roster. *)
Lemma unregister_breaks_invariant :
  nick_invariant pool_bob
  ∧ ∃ pool',
      pool_after (step pool_bob (Unregister connA)) = Some pool'
      ∧ ¬ nick_invariant pool'.
Proof.
  split; [exact pool_bob_invariant|].
  eexists. split; [reflexivity|].
  intros [Hroster _]. destruct (Hroster addrA "bob") as [c Hc].
  - apply lookup_singleton_eq.
  - simpl in Hc. by rewrite lookup_delete_eq in Hc.
Qed.

(** Nor is an Inbound event of a connection outside the roster harmless: its
    [/nick] binds a nickname to an identity that has no roster entry. *)
Lemma nick_of_unregistered_sender :
  ∃ pool',
    pool_after (step newConnectionPool (Inbound (mkMessage connA "/nick bob")))
    = Some pool'
    ∧ nicks pool' !! addrA = Some "bob"
    ∧ connections pool' !! addrA = None.
Proof. eexists. split; [vm_compute; reflexivity|]. split; vm_compute; reflexivity. Qed.

(** ** The loop as a whole *)

(** Events are processed in order, and after a [Shutdown] or a panic no
    later event has any effect. *)
Lemma Run_app pool evs1 evs2 :
  Run pool (evs1 ++ evs2)
  = match Run pool evs1 with
    | Running pool1 out1 =>
        match Run pool1 evs2 with
        | Running pool2 out2 => Running pool2 (out1 ++ out2)
        | other => other
        end
    | other => other
    end.
Proof.
  revert pool. induction evs1 as [|ev evs1 IH]; intros pool; simpl.
  - by destruct (Run pool evs2).
  - destruct (step pool ev) as [pool1 out1| |]; [|done..].
    rewrite IH. destruct (Run pool1 evs1) as [pool2 out2| |]; [|done..].
    destruct (Run pool2 evs2) as [pool3 out3| |]; [|done..].
    by rewrite app_assoc.
Qed.

(** An inbound line never changes the roster. *)
Lemma inbound_keeps_roster pool m pool' out :
  step pool (Inbound m) = Running pool' out → connections pool' = connections pool.
Proof.
  simpl. unfold dispatch. destruct (strings.HasPrefix (message m) "/").
  - destruct (handleCommand pool m) as [p o|] eqn:Hcmd; [|done].
    intros [= -> _].
    by destruct (handleCommand_pool _ _ _ _ Hcmd) as [->|(newNick & _ & ->)].
  - unfold handleMessage. cbn [getNames]. by intros [= <- _].
Qed.

Lemma step_roster pool ev pool' out :
  step pool ev = Running pool' out →
  connections pool' = roster_event (connections pool) ev.
Proof.
  destruct ev as [conn|conn|m|]; [by intros [= <- _]..| |done].
  apply inbound_keeps_roster.
Qed.

(** X3: while the loop is running, the roster is decided by the Register
    and Unregister events alone, in the order they were processed; inbound
    lines, commands included, never add, drop or replace a roster entry. *)
Theorem roster_follows_register_unregister pool evs pool' out :
  Run pool evs = Running pool' out →
  connections pool' = roster_after evs (connections pool).
Proof.
  unfold roster_after. revert pool out.
  induction evs as [|ev evs IH]; intros pool out; simpl.
  - by intros [= <- _].
  - destruct (step pool ev) as [pool1 out1| |] eqn:Hstep; [|done..].
    destruct (Run pool1 evs) as [pool2 out2| |] eqn:Hrun; [|done..].
    intros [= <- _]. rewrite (IH _ _ Hrun). by rewrite (step_roster _ _ _ _ Hstep).
Qed.

Lemma roster_follows_register_unregister_witness :
  ∃ pool' out,
    Run pool_bob_B [Inbound (mkMessage connB "/nick carol"); Register connC;
                    Inbound (mkMessage connC "hi"); Unregister connA]
    = Running pool' out
    ∧ connections pool' = <[addrC := connC]> {[ addrB := connB ]}.
Proof.
  assert (Hrun :
    ∃ pool' out,
      Run pool_bob_B [Inbound (mkMessage connB "/nick carol"); Register connC;
                      Inbound (mkMessage connC "hi"); Unregister connA]
      = Running pool' out).
  { vm_compute. eauto. }
  destruct Hrun as (pool' & out & Hrun). exists pool', out. split; [exact Hrun|].
  rewrite (roster_follows_register_unregister _ _ _ _ Hrun).
  vm_compute. reflexivity.
Defined.

(** The handler panics exactly on the bare words [/nick] and [/privmsg]. *)
Lemma handleCommand_panics_iff pool m :
  handleCommand pool m = Panic ↔ message m = "/nick" ∨ message m = "/privmsg".
Proof.
  split.
  - intros Hpanic.
    destruct (decide (message m = "/nick")) as [|Hnick]; [by left|].
    destruct (decide (message m = "/privmsg")) as [|Hpriv]; [by right|].
    destruct (handleCommand_done pool m Hnick Hpriv) as (p & o & Hdone).
    by rewrite Hdone in Hpanic.
  - intros [E|E]; rewrite (handleCommand_no_argument pool m (message m));
      rewrite ?E; auto.
Qed.

(** A turn for an inbound line crashes when the line is a command and the
    handler panics. *)
Lemma step_crashed pool m :
  step pool (Inbound m) = Crashed
  ↔ strings.HasPrefix (message m) "/" = true ∧ handleCommand pool m = Panic.
Proof.
  simpl. unfold dispatch. destruct (strings.HasPrefix (message m) "/").
  - destruct (handleCommand pool m); split; (done || by intros [_ ?]).
  - unfold handleMessage. cbn [getNames]. split; (done || by intros [? _]).
Qed.

(** X2: an inbound line stops the loop exactly when it is the bare word
    [/nick] or the bare word [/privmsg]: the handler then reads [parts[0]]
    of an empty slice.  Every other line, in every state, is processed to
    the end. *)
Theorem inbound_crashes_iff pool m :
  step pool (Inbound m) = Crashed
  ↔ message m = "/nick" ∨ message m = "/privmsg".
Proof.
  rewrite step_crashed, handleCommand_panics_iff. split; [by intros [_ ?]|].
  intros Hbare. split; [|done]. by destruct Hbare as [-> | ->].
Qed.

(** A run of inbound lines of one connection ends in a panic exactly when
    one of the lines is a bare [/nick] or [/privmsg]. *)
Lemma Run_lines_crash pool conn lines :
  Run pool (map (λ text, Inbound (mkMessage conn text)) lines) = Crashed
  ↔ "/nick" ∈ lines ∨ "/privmsg" ∈ lines.
Proof.
  revert pool. induction lines as [|text lines IH]; intros pool.
  - simpl. split; [done|]. intros [H|H]; by apply elem_of_nil in H.
  - cbn [map Run]. rewrite !elem_of_cons.
    assert (Hiff : step pool (Inbound (mkMessage conn text)) = Crashed
                   ↔ text = "/nick" ∨ text = "/privmsg").
    { rewrite step_crashed, handleCommand_panics_iff. cbn [message].
      split; [by intros [_ ?]|].
      intros Hbare. split; [|done]. by destruct Hbare as [-> | ->]. }
    destruct (step pool (Inbound (mkMessage conn text))) as [pool1 out1|p c|] eqn:Hs.
    + assert (Hrest :
        match Run pool1 (map (λ text, Inbound (mkMessage conn text)) lines) with
        | Running pool2 out2 => Running pool2 (out1 ++ out2)
        | other => other
        end = Crashed
        ↔ Run pool1 (map (λ text, Inbound (mkMessage conn text)) lines) = Crashed).
      { by destruct (Run pool1 _). }
      assert (Hne1 : "/nick" ≠ text).
      { intros <-. by destruct Hiff as [_ Hiff]; specialize (Hiff (or_introl eq_refl)). }
      assert (Hne2 : "/privmsg" ≠ text).
      { intros <-. by destruct Hiff as [_ Hiff]; specialize (Hiff (or_intror eq_refl)). }
      rewrite Hrest, IH. tauto.
    + simpl in Hs. by destruct (dispatch pool _).
    + destruct Hiff as [Hiff _].
      destruct (Hiff eq_refl) as [-> | ->]; (split; [intros _|done]).
      * by left; left.
      * by right; left.
Qed.

Lemma Run_lines_roster pool conn lines pool' out :
  Run pool (map (λ text, Inbound (mkMessage conn text)) lines) = Running pool' out →
  connections pool' = connections pool.
Proof.
  revert pool out. induction lines as [|text lines IH]; intros pool out.
  - by intros [= <- _].
  - cbn [map Run].
    destruct (step pool (Inbound (mkMessage conn text))) as [pool1 out1| |] eqn:Hs;
      [|done..].
    destruct (Run pool1 _) as [pool2 out2| |] eqn:Hrun; [|done..].
    intros [= <- _]. rewrite (IH _ _ Hrun). by apply inbound_keeps_roster in Hs.
Qed.

(** X4: one complete session (connect, any lines, disconnect) either stops
    the loop, exactly when one of its lines is the bare word [/nick] or
    [/privmsg], or runs to its end and leaves the roster without an entry for
    the address of the session and otherwise as it was. *)
Theorem session_outcome pool conn lines :
  ("/nick" ∈ lines ∨ "/privmsg" ∈ lines → Run pool (session conn lines) = Crashed)
  ∧ (¬ ("/nick" ∈ lines ∨ "/privmsg" ∈ lines) →
     ∃ pool' out,
       Run pool (session conn lines) = Running pool' out
       ∧ connections pool' = delete (RemoteAddr conn) (connections pool)).
Proof.
  unfold session. cbn [Run step]. rewrite Run_app.
  pose proof (Run_lines_crash (register pool conn) conn lines) as Hcrash.
  destruct (Run (register pool conn) _) as [pool1 out1|p c|] eqn:Hrun.
  - split.
    + intros Hbare. by apply Hcrash in Hbare.
    + intros _. cbn [Run step]. do 2 eexists. split; [reflexivity|].
      simpl. rewrite (Run_lines_roster _ _ _ _ _ Hrun). simpl.
      apply delete_insert_eq.
  - exfalso. clear Hcrash. revert Hrun. generalize (register pool conn).
    induction lines as [|text lines IH]; intros q; [done|]. cbn [map Run].
    destruct (step q (Inbound (mkMessage conn text))) as [q1 o1| |] eqn:Hs.
    + specialize (IH q1). by destruct (Run q1 _).
    + simpl in Hs. by destruct (dispatch q _).
    + done.
  - split; [done|]. intros Hno. by destruct Hno; apply Hcrash.
Qed.

Lemma session_outcome_witness :
  Run pool_bob_B (session connC ["hello"; "/nick"; "bye"]) = Crashed
  ∧ ∃ pool' out,
      Run pool_bob_B (session connC ["hello"; "/nick carol"]) = Running pool' out
      ∧ connections pool' = delete addrC (connections pool_bob_B).
Proof.
  split.
  - apply (session_outcome pool_bob_B connC ["hello"; "/nick"; "bye"]).
    left. rewrite !elem_of_cons. by right; left.
  - apply (session_outcome pool_bob_B connC ["hello"; "/nick carol"]).
    rewrite !elem_of_cons, !elem_of_nil.
    intros [[H|[H|[]]]|[H|[H|[]]]]; discriminate H.
Defined.

(** ** What every reachable pool satisfies *)

(** A property kept by every turn of the loop is kept by the loop. *)
Lemma Run_invariant (P : ConnectionPool → Prop) :
  (∀ pool ev pool', P pool → pool_after (step pool ev) = Some pool' → P pool') →
  ∀ evs pool pool', P pool → pool_after (Run pool evs) = Some pool' → P pool'.
Proof.
  intros Hstep. induction evs as [|ev evs IH]; intros pool pool' HP; simpl.
  - by intros [= <-].
  - destruct (step pool ev) as [pool1 out1|pool1 closed|] eqn:Hs; [| |done].
    + assert (HP1 : P pool1) by (apply (Hstep pool ev); [done|by rewrite Hs]).
      intros Hrun. apply (IH pool1 pool' HP1).
      by destruct (Run pool1 evs).
    + intros [= <-]. apply (Hstep pool ev); [done|by rewrite Hs].
Qed.

(** What a turn of the loop can do to the pool. *)
Lemma step_pool pool ev pool' :
  pool_after (step pool ev) = Some pool' →
  pool' = pool
  ∨ (∃ conn, ev = Register conn ∧ pool' = register pool conn)
  ∨ (∃ conn, ev = Unregister conn ∧ pool' = unregister pool conn)
  ∨ (∃ m newNick,
       ev = Inbound m
       ∧ connectionFromNickOrName pool newNick = None
       ∧ pool' = {| connections := connections pool;
                    nicks := <[RemoteAddr (connection m) := newNick]> (nicks pool);
                    rnicks := <[newNick := RemoteAddr (connection m)]> (rnicks pool) |}).
Proof.
  destruct ev as [conn|conn|m|]; simpl.
  - intros [= <-]. right; left. eauto.
  - intros [= <-]. right; right; left. eauto.
  - unfold dispatch. destruct (strings.HasPrefix (message m) "/").
    + destruct (handleCommand pool m) as [p o|] eqn:Hcmd; [|done].
      intros [= ->].
      destruct (handleCommand_pool _ _ _ _ Hcmd) as [->|(newNick & Hfree & ->)];
        [by left|]. right; right; right. eauto.
    + unfold handleMessage. cbn [getNames]. intros [= <-]. by left.
  - intros [= <-]. by left.
Qed.

(** X5: every pool the loop reaches from the empty pool, whatever the
    events, files each roster entry under the remote address of its own
    connection; so no connection is the entry of two identities. *)
Theorem reachable_roster_wf evs pool :
  pool_after (Run newConnectionPool evs) = Some pool →
  roster_wf pool
  ∧ ∀ id1 id2 c,
      connections pool !! id1 = Some c → connections pool !! id2 = Some c →
      id1 = id2.
Proof.
  intros Hrun.
  assert (Hwf : roster_wf pool).
  { apply (Run_invariant roster_wf) with (evs := evs) (pool := newConnectionPool);
      [|done|done].
    intros p ev p' Hp Hs. by apply (step_roster_wf p ev). }
  split; [done|]. intros id1 id2 c H1 H2.
  by rewrite <- (Hwf _ _ H1), <- (Hwf _ _ H2).
Qed.

Lemma reachable_roster_wf_witness : roster_wf pool_bob.
Proof.
  apply (reachable_roster_wf
           [Register connA; Inbound (mkMessage connA "/nick bob")] pool_bob).
  vm_compute. reflexivity.
Defined.

(** X6: no event ever removes a nickname entry: an identity that has a
    forward entry keeps one, and a nickname that has a reverse entry keeps
    one, for as long as the process lives. *)
Theorem bindings_are_never_removed pool evs pool' :
  pool_after (Run pool evs) = Some pool' →
  dom (nicks pool) ⊆ dom (nicks pool') ∧ dom (rnicks pool) ⊆ dom (rnicks pool').
Proof.
  apply (Run_invariant
           (λ p, dom (nicks pool) ⊆ dom (nicks p) ∧ dom (rnicks pool) ⊆ dom (rnicks p)));
    [|done].
  intros p ev p' [Hn Hr] Hs.
  destruct (step_pool p ev p' Hs)
    as [->|[(c & _ & ->)|[(c & _ & ->)|(m & n & _ & _ & ->)]]]; simpl; [done..|].
  rewrite !dom_insert. split; set_solver.
Qed.

Lemma bindings_are_never_removed_witness :
  ∃ pool',
    pool_after (Run pool_bob [Unregister connA; Register connB;
                              Inbound (mkMessage connB "/nick bob")]) = Some pool'
    ∧ addrA ∈ dom (nicks pool') ∧ "bob" ∈ dom (rnicks pool').
Proof.
  assert (Hrun : ∃ pool',
    pool_after (Run pool_bob [Unregister connA; Register connB;
                              Inbound (mkMessage connB "/nick bob")]) = Some pool').
  { vm_compute. eauto. }
  destruct Hrun as [pool' Hrun]. exists pool'. split; [exact Hrun|].
  destruct (bindings_are_never_removed _ _ _ Hrun) as [Hn Hr].
  split; [apply Hn|apply Hr]; unfold pool_bob; simpl;
    rewrite dom_singleton; by apply elem_of_singleton.
Defined.

(** X7: in every pool the loop reaches from the empty pool, every nickname
    in the forward map has a reverse entry and the identity of every reverse
    entry has a forward entry. *)
Theorem reachable_nick_maps_linked evs pool :
  pool_after (Run newConnectionPool evs) = Some pool → nick_maps_linked pool.
Proof.
  apply (Run_invariant nick_maps_linked); [|by split].
  intros p ev p' [Hfwd Hrev] Hs.
  destruct (step_pool p ev p' Hs)
    as [->|[(c & _ & ->)|[(c & _ & ->)|(m & n & _ & _ & ->)]]]; [by split..|].
  split; simpl.
  - intros id nick. rewrite lookup_insert. case_decide as Hid.
    + intros [= <-]. rewrite lookup_insert_eq. by eexists.
    + intros Hn. rewrite lookup_insert. case_decide; [by eexists|by eapply Hfwd].
  - intros nick id. rewrite lookup_insert. case_decide as Hn.
    + intros [= <-]. rewrite lookup_insert_eq. by eexists.
    + intros Hr. rewrite lookup_insert. case_decide; [by eexists|by eapply Hrev].
Qed.

Lemma reachable_nick_maps_linked_witness : nick_maps_linked pool_bob.
Proof.
  apply (reachable_nick_maps_linked
           [Register connA; Inbound (mkMessage connA "/nick bob")] pool_bob).
  vm_compute. reflexivity.
Defined.

(** ** What the handlers write, and to whom *)

Lemma resolved_in_roster pool name remote :
  connectionFromNickOrName pool name = Some remote →
  ∃ n, connections pool !! n = Some remote.
Proof. unfold connectionFromNickOrName. eauto. Qed.

Lemma sendAll_recipients pool from text w :
  w ∈ sendAll pool from text → ∃ n, connections pool !! n = Some w.1.
Proof.
  unfold sendAll. intros ([n c] & <- & Hin)%list_elem_of_In%in_map_iff.
  exists n. by apply elem_of_map_to_list, list_elem_of_In.
Qed.

Lemma handleCommand_recipients pool m pool' out w :
  handleCommand pool m = Done pool' out →
  w ∈ out →
  w.1 = connection m ∨ ∃ n, connections pool !! n = Some w.1.
Proof.
  unfold handleCommand, Fprintf. cbn [getNames].
  destruct (strings.Split (message m) space) as [|cmd parts]; [done|].
  repeat case_decide; repeat case_match; intros [= <- <-]; simpl;
    rewrite ?elem_of_cons, ?elem_of_nil;
    try (intros [->|[->|[]]] || intros [->|[]]); simpl; eauto using resolved_in_roster.
  all: intros Hw; right; by apply sendAll_recipients in Hw.
Qed.

(** X8: whatever an inbound line is, every write it causes goes to the
    sender or to a connection that is in the roster at that moment. *)
Theorem writes_stay_in_roster pool m pool' out :
  step pool (Inbound m) = Running pool' out →
  ∀ w, w ∈ out → w.1 = connection m ∨ ∃ n, connections pool !! n = Some w.1.
Proof.
  simpl. unfold dispatch. destruct (strings.HasPrefix (message m) "/").
  - destruct (handleCommand pool m) as [p o|] eqn:Hcmd; [|done].
    intros [= <- <-] w Hw. by apply (handleCommand_recipients pool m p o).
  - unfold handleMessage. cbn [getNames]. intros [= <- <-] w Hw.
    right. by apply sendAll_recipients in Hw.
Qed.

Lemma writes_stay_in_roster_witness :
  ∃ n, connections pool_bob_B !! n = Some connA.
Proof.
  assert (Hstep : step pool_bob_B (Inbound (mkMessage connB "/nick bob"))
                  = Running pool_bob_B
                      [(connB, "Nickname 'bob' is already taken by 10.0.0.1:5000" +:+ nl);
                       (connA, "User '10.0.0.2:5000' tried to steal your nickname 'bob'"
                                 +:+ nl)])
    by (vm_compute; reflexivity).
  destruct (writes_stay_in_roster _ _ _ _ Hstep
              (connA, "User '10.0.0.2:5000' tried to steal your nickname 'bob'" +:+ nl))
    as [Hsender|Hroster].
  - rewrite !elem_of_cons. by right; left.
  - discriminate Hsender.
  - exact Hroster.
Defined.

Lemma append_assoc (a b c : string) : (a +:+ b) +:+ c = a +:+ (b +:+ c).
Proof.
  induction a as [|x a IH]; [done|].
  change (String x ((a +:+ b) +:+ c) = String x (a +:+ (b +:+ c))). by rewrite IH.
Qed.

Lemma newline_terminated_nl (s : string) : newline_terminated (s +:+ nl).
Proof. by exists s. Qed.

Lemma newline_terminated_app (a b : string) :
  newline_terminated b → newline_terminated (a +:+ b).
Proof. intros [s ->]. exists (a +:+ s). by rewrite append_assoc. Qed.

Ltac full_line :=
  repeat first [apply newline_terminated_nl | apply newline_terminated_app].

Lemma sendAll_newline pool from text w :
  w ∈ sendAll pool from text → newline_terminated w.2.
Proof.
  unfold sendAll. intros ([n c] & <- & _)%list_elem_of_In%in_map_iff. simpl.
  unfold sendAll_line. case_decide; full_line.
Qed.

Lemma handleCommand_newline pool m pool' out w :
  handleCommand pool m = Done pool' out → w ∈ out → newline_terminated w.2.
Proof.
  unfold handleCommand, Fprintf. cbn [getNames].
  destruct (strings.Split (message m) space) as [|cmd parts]; [done|].
  repeat case_decide; repeat case_match; intros [= <- <-];
    cbn [app]; rewrite ?elem_of_cons, ?elem_of_nil;
    try (intros [->|[->|[]]] || intros [->|[]]); cbn [snd];
    try (progress full_line).
  all: apply sendAll_newline.
Qed.

(** X9: every text the loop writes to a connection, for whatever event in
    whatever state, ends with a line feed, so a client that reads line by
    line never waits on an unfinished line. *)
Theorem every_write_is_a_full_line pool ev pool' out :
  step pool ev = Running pool' out → ∀ w, w ∈ out → newline_terminated w.2.
Proof.
  destruct ev as [conn|conn|m|]; simpl.
  - intros [= _ <-] w Hw. by apply elem_of_nil in Hw.
  - intros [= _ <-] w Hw. by apply elem_of_nil in Hw.
  - unfold dispatch. destruct (strings.HasPrefix (message m) "/").
    + destruct (handleCommand pool m) as [p o|] eqn:Hcmd; [|done].
      intros [= <- <-] w Hw. by apply (handleCommand_newline pool m p o).
    + unfold handleMessage. cbn [getNames]. intros [= <- <-] w Hw.
      by apply sendAll_newline in Hw.
  - done.
Qed.

Lemma every_write_is_a_full_line_witness :
  newline_terminated ("bob (10.0.0.1:5000)" +:+ nl +:+ "10.0.0.2:5000 *" +:+ nl).
Proof.
  assert (Hstep : step pool_bob_B (Inbound (mkMessage connB "/who"))
                  = Running pool_bob_B
                      [(connB, "bob (10.0.0.1:5000)" +:+ nl
                                 +:+ "10.0.0.2:5000 *" +:+ nl)])
    by (vm_compute; reflexivity).
  apply (every_write_is_a_full_line _ _ _ _ Hstep (connB, _)).
  rewrite elem_of_cons. by left.
Defined.

(** X10: a plain line, from whatever connection and whether or not it has
    a nickname, leaves the pool as it was and is written exactly once to
    every roster entry and to nobody else; each text is the line either
    self-framed or attributed to the display name of the sender. *)
Theorem plain_line_reaches_every_entry_once pool m :
  strings.HasPrefix (message m) "/" = false →
  ∃ out,
    step pool (Inbound m) = Running pool out
    ∧ map fst out = map snd (map_to_list (connections pool))
    ∧ ∀ w, w ∈ out →
        w.2 = self_framed (message m)
        ∨ w.2 = attributed (getNames pool m).2 (message m).
Proof.
  intros Hplain. rewrite (step_plain pool m Hplain). eexists. split; [done|].
  unfold sendAll. split.
  - rewrite map_map. apply map_ext. by intros [n c].
  - intros w ([n c] & <- & _)%list_elem_of_In%in_map_iff. simpl.
    unfold sendAll_line. case_decide; [by left|by right].
Qed.

Lemma plain_line_reaches_every_entry_once_witness :
  ∃ out,
    step pool_bob_B (Inbound (mkMessage connA "hello")) = Running pool_bob_B out
    ∧ map fst out = [connA; connB].
Proof.
  destruct (plain_line_reaches_every_entry_once pool_bob_B (mkMessage connA "hello"))
    as (out & Hstep & Hto & _); [reflexivity|].
  exists out. split; [exact Hstep|]. rewrite Hto. vm_compute. reflexivity.
Defined.

(** ** Nicknames over several events *)

Lemma step_nick pool conn newNick :
  strings.contains newNick space = false →
  step pool (Inbound (mkMessage conn ("/nick " +:+ newNick)))
  = match connectionFromNickOrName pool newNick with
    | Some remote =>
        Running pool
          [(conn, "Nickname '" +:+ newNick +:+ "' is already taken by "
                    +:+ RemoteAddr remote +:+ nl);
           (remote, "User '" +:+ RemoteAddr conn
                      +:+ "' tried to steal your nickname '" +:+ newNick +:+ "'" +:+ nl)]
    | None =>
        let pool' :=
          {| connections := connections pool;
             nicks := <[RemoteAddr conn := newNick]> (nicks pool);
             rnicks := <[newNick := RemoteAddr conn]> (rnicks pool) |} in
        Running pool'
          (sendAll pool' (RemoteAddr conn)
             ("Nickname changed from '"
                +:+ (getNames pool (mkMessage conn ("/nick " +:+ newNick))).2
                +:+ "' to '" +:+ newNick +:+ "'"))
    end.
Proof.
  intros Hsp. rewrite step_command by reflexivity.
  rewrite (handleCommand_nick pool (mkMessage conn ("/nick " +:+ newNick)) newNick
             (Split_nick newNick Hsp)).
  by destruct (connectionFromNickOrName pool newNick).
Qed.

(** X11: once a registered connection has taken a nickname, the same
    request from any connection, the holder itself included, is refused:
    the pool stays as it is, the requester is told the holder's address and
    the holder is told the requester's. *)
Theorem nickname_is_reserved pool conn other n :
  strings.contains n space = false →
  registered pool conn →
  connectionFromNickOrName pool n = None →
  ∃ pool1 out1,
    step pool (Inbound (mkMessage conn ("/nick " +:+ n))) = Running pool1 out1
    ∧ step pool1 (Inbound (mkMessage other ("/nick " +:+ n)))
      = Running pool1
          [(other, "Nickname '" +:+ n +:+ "' is already taken by "
                     +:+ RemoteAddr conn +:+ nl);
           (conn, "User '" +:+ RemoteAddr other
                    +:+ "' tried to steal your nickname '" +:+ n +:+ "'" +:+ nl)].
Proof.
  intros Hsp Hreg Hfree. rewrite (step_nick pool conn n Hsp), Hfree.
  do 2 eexists. split; [reflexivity|].
  rewrite (step_nick _ other n Hsp). unfold connectionFromNickOrName. simpl.
  by rewrite lookup_insert_eq, Hreg.
Qed.

Lemma nickname_is_reserved_witness :
  ∃ pool1 out1,
    step pool_bob_B (Inbound (mkMessage connB "/nick carol")) = Running pool1 out1
    ∧ step pool1 (Inbound (mkMessage connB "/nick carol"))
      = Running pool1
          [(connB, "Nickname 'carol' is already taken by 10.0.0.2:5000" +:+ nl);
           (connB, "User '10.0.0.2:5000' tried to steal your nickname 'carol'" +:+ nl)].
Proof.
  apply (nickname_is_reserved pool_bob_B connB connB "carol");
    [reflexivity | vm_compute; reflexivity | vm_compute; reflexivity].
Defined.

(** X12: a nickname whose reverse entry names an identity that is no
    longer in the roster is free to take: the request of a registered
    connection succeeds, the reverse entry now names the new holder and the
    nickname resolves to it, while the forward entry of the old holder is
    left as it was. *)
Theorem stale_nickname_can_be_taken pool conn n owner :
  strings.contains n space = false →
  registered pool conn →
  rnicks pool !! n = Some owner →
  connections pool !! owner = None →
  ∃ pool' out,
    step pool (Inbound (mkMessage conn ("/nick " +:+ n))) = Running pool' out
    ∧ rnicks pool' !! n = Some (RemoteAddr conn)
    ∧ connectionFromNickOrName pool' n = Some conn
    ∧ nicks pool' !! owner = nicks pool !! owner.
Proof.
  intros Hsp Hreg Howner Hgone.
  assert (Hfree : connectionFromNickOrName pool n = None).
  { unfold connectionFromNickOrName. by rewrite Howner. }
  rewrite (step_nick pool conn n Hsp), Hfree.
  do 2 eexists. split; [reflexivity|]. simpl.
  unfold connectionFromNickOrName; simpl. rewrite lookup_insert_eq.
  repeat split; [done|].
  apply lookup_insert_ne. intros E. unfold registered in Hreg. congruence.
Qed.

Lemma stale_nickname_can_be_taken_witness :
  ∃ pool' out,
    step (register (unregister pool_bob connA) connB)
      (Inbound (mkMessage connB "/nick bob")) = Running pool' out
    ∧ rnicks pool' !! "bob" = Some addrB
    ∧ connectionFromNickOrName pool' "bob" = Some connB
    ∧ nicks pool' !! addrA = Some "bob".
Proof.
  destruct (stale_nickname_can_be_taken
              (register (unregister pool_bob connA) connB) connB "bob" addrA)
    as (pool' & out & Hstep & Hr & Hres & Hn);
    [reflexivity | vm_compute; reflexivity | vm_compute; reflexivity
    | vm_compute; reflexivity |].
  exists pool', out. repeat split; [exact Hstep|exact Hr|exact Hres|].
  rewrite Hn. vm_compute. reflexivity.
Defined.

Lemma pool_after_Run_cons pool ev evs pool1 out1 :
  step pool ev = Running pool1 out1 →
  pool_after (Run pool (ev :: evs)) = pool_after (Run pool1 evs).
Proof. intros Hs. simpl. rewrite Hs. by destruct (Run pool1 evs). Qed.

(** X13: two connections in the roster can end up under one nickname.
    If [a] takes a nickname and disconnects, [b] takes the same nickname,
    and a connection [a'] then arrives from the address of [a], both are in
    the roster, both are displayed under that nickname, and the nickname
    resolves to [b] only. *)
Theorem nickname_shared_after_reconnect (a a' b : Conn) (n : string) :
  RemoteAddr a' = RemoteAddr a →
  RemoteAddr a ≠ RemoteAddr b →
  strings.contains n space = false →
  n ≠ "" → n ≠ RemoteAddr a → n ≠ RemoteAddr b →
  ∃ pool,
    pool_after
      (Run newConnectionPool
         [Register a; Inbound (mkMessage a ("/nick " +:+ n)); Unregister a;
          Register b; Inbound (mkMessage b ("/nick " +:+ n)); Register a'])
    = Some pool
    ∧ registered pool a' ∧ registered pool b
    ∧ (∀ text, (getNames pool (mkMessage a' text)).2 = n)
    ∧ (∀ text, (getNames pool (mkMessage b text)).2 = n)
    ∧ connectionFromNickOrName pool n = Some b.
Proof.
  intros Haddr Hab Hsp Hne Hna Hnb.
  rewrite (pool_after_Run_cons _ _ _ (register newConnectionPool a) []) by done.
  set (p1 := register newConnectionPool a).
  assert (Hs2 : ∃ out,
    step p1 (Inbound (mkMessage a ("/nick " +:+ n)))
    = Running {| connections := connections p1;
                 nicks := <[RemoteAddr a := n]> (nicks p1);
                 rnicks := <[n := RemoteAddr a]> (rnicks p1) |} out).
  { rewrite (step_nick p1 a n Hsp).
    assert (connectionFromNickOrName p1 n = None) as ->; [|by eexists].
    unfold connectionFromNickOrName, p1; simpl.
    rewrite lookup_empty. by rewrite lookup_insert_ne. }
  destruct Hs2 as [out2 Hs2]. rewrite (pool_after_Run_cons _ _ _ _ _ Hs2).
  set (p2 := mkPool _ _ _).
  rewrite (pool_after_Run_cons _ _ _ (unregister p2 a) []) by done.
  rewrite (pool_after_Run_cons _ _ _ (register (unregister p2 a) b) []) by done.
  set (p4 := register (unregister p2 a) b).
  assert (Hs5 : ∃ out,
    step p4 (Inbound (mkMessage b ("/nick " +:+ n)))
    = Running {| connections := connections p4;
                 nicks := <[RemoteAddr b := n]> (nicks p4);
                 rnicks := <[n := RemoteAddr b]> (rnicks p4) |} out).
  { rewrite (step_nick p4 b n Hsp).
    assert (connectionFromNickOrName p4 n = None) as ->; [|by eexists].
    unfold connectionFromNickOrName, p4, p2, p1; simpl.
    rewrite lookup_insert_eq. rewrite lookup_insert_ne by done.
    by rewrite lookup_delete_eq. }
  destruct Hs5 as [out5 Hs5]. rewrite (pool_after_Run_cons _ _ _ _ _ Hs5).
  set (p5 := mkPool _ _ _).
  rewrite (pool_after_Run_cons _ _ _ (register p5 a') []) by done.
  eexists. split; [reflexivity|].
  unfold registered, getNames, connectionFromNickOrName, p5, p4, p2, p1; simpl.
  rewrite Haddr. repeat split.
  - apply lookup_insert_eq.
  - rewrite lookup_insert_ne by done. apply lookup_insert_eq.
  - intros _. rewrite lookup_insert_ne by done. rewrite lookup_insert_eq. simpl.
    by rewrite decide_False.
  - intros _. rewrite lookup_insert_eq. simpl. by rewrite decide_False.
  - rewrite lookup_insert_eq. rewrite lookup_insert_ne by done.
    apply lookup_insert_eq.
Qed.

Lemma nickname_shared_after_reconnect_witness :
  ∃ pool,
    pool_after
      (Run newConnectionPool
         [Register connA; Inbound (mkMessage connA "/nick bob"); Unregister connA;
          Register connB; Inbound (mkMessage connB "/nick bob"); Register connA'])
    = Some pool
    ∧ (getNames pool (mkMessage connA' "hi")).2 = "bob"
    ∧ (getNames pool (mkMessage connB "hi")).2 = "bob"
    ∧ connectionFromNickOrName pool "bob" = Some connB.
Proof.
  destruct (nickname_shared_after_reconnect connA connA' connB "bob")
    as (pool & Hrun & _ & _ & Ha & Hb & Hres); try done.
  exists pool. split; [exact Hrun|]. split; [apply Ha|]. split; [apply Hb|exact Hres].
Defined.


(** ** The client *)

(** X15: the client forwards the lines typed before the first line that is
    exactly [quit], each followed by a line feed, and nothing else: neither
    that line nor any line after it. *)
Theorem runClient_stdin_until_quit (before after : list string) :
  "quit" ∉ before →
  runClient_stdin (before ++ "quit" :: after) = map (λ text, text +:+ nl) before
  ∧ runClient_stdin before = map (λ text, text +:+ nl) before.
Proof.
  induction before as [|text before IH]; intros Hquit; simpl.
  - done.
  - apply not_elem_of_cons in Hquit as [Hne Hquit].
    rewrite !decide_False by done. by destruct (IH Hquit) as [-> ->].
Qed.

Lemma runClient_stdin_until_quit_witness :
  runClient_stdin ["hello"; "/nick bob"; "quit"; "more"]
  = ["hello" +:+ nl; "/nick bob" +:+ nl].
Proof.
  apply (runClient_stdin_until_quit ["hello"; "/nick bob"] ["more"]).
  rewrite !not_elem_of_cons. repeat split; try discriminate.
  apply not_elem_of_nil.
Defined.

(** ** What changes the pool *)

(** X16: the only inbound line that changes anything in the pool is
    [/nick] followed by exactly one argument; every other line that is
    processed, plain or command, leaves the roster and both nickname maps
    exactly as they were. *)
Theorem only_nick_changes_the_pool pool m pool' out :
  (∀ newNick, strings.Split (message m) space ≠ ["/nick"; newNick]) →
  step pool (Inbound m) = Running pool' out →
  pool' = pool.
Proof.
  intros Hnot. simpl. unfold dispatch.
  destruct (strings.HasPrefix (message m) "/").
  - unfold handleCommand. cbn [getNames].
    destruct (strings.Split (message m) space) as [|cmd parts] eqn:E;
      [by destruct (Split_nonempty space (message m))|].
    destruct (decide (cmd = "/nick")) as [->|Hcmd].
    + destruct parts as [|p1 [|p2 parts]].
      * by rewrite decide_False by (simpl; lia).
      * by destruct (Hnot p1).
      * rewrite decide_True by (simpl; lia). by intros [= <- _].
    + repeat case_decide; repeat case_match; intros; by simplify_eq.
  - unfold handleMessage. cbn [getNames]. by intros [= <- _].
Qed.

Lemma only_nick_changes_the_pool_witness :
  ∃ pool' out,
    step pool_bob_B (Inbound (mkMessage connB "/privmsg bob hello")) = Running pool' out
    ∧ pool' = pool_bob_B.
Proof.
  assert (Hstep : ∃ pool' out,
    step pool_bob_B (Inbound (mkMessage connB "/privmsg bob hello"))
    = Running pool' out) by (vm_compute; eauto).
  destruct Hstep as (pool' & out & Hstep). exists pool', out.
  split; [exact Hstep|].
  apply (only_nick_changes_the_pool pool_bob_B
           (mkMessage connB "/privmsg bob hello") pool' out); [|exact Hstep].
  intros newNick. vm_compute. discriminate.
Defined.

(** ** The earlier revision [part_000] *)

Lemma HasPrefix_app s p : strings.HasPrefix (p +:+ s) p = true.
Proof.
  unfold strings.HasPrefix. induction p as [|c p IH]; simpl.
  - by destruct s.
  - by destruct (ascii_dec c c).
Qed.

Lemma HasPrefix_inv s p : strings.HasPrefix s p = true → ∃ x, s = p +:+ x.
Proof.
  unfold strings.HasPrefix. revert s. induction p as [|c p IH]; intros s H.
  - by exists s.
  - destruct s as [|d s]; simpl in H; [done|].
    destruct (ascii_dec c d) as [->|]; [|done].
    destruct (IH s H) as [x ->]. by exists x.
Qed.

Lemma substring_all x : substring 0 (String.length x) x = x.
Proof. induction x as [|c x IH]; simpl; [done|]. by rewrite IH. Qed.

Lemma substring_app p x :
  substring (String.length p) (String.length (p +:+ x) - String.length p) (p +:+ x) = x.
Proof.
  induction p as [|c p IH].
  - change (substring 0 (String.length x - 0) x = x).
    rewrite Nat.sub_0_r. apply substring_all.
  - exact IH.
Qed.

Lemma TrimPrefix_app s p : strings.TrimPrefix (p +:+ s) p = s.
Proof. unfold strings.TrimPrefix. by rewrite HasPrefix_app, substring_app. Qed.

Lemma Index_cut s sep :
  strings.Index s sep = (-1)%Z ↔ strings.cut s sep = None.
Proof.
  induction s as [|c s IH]; simpl; [done|].
  destruct (Ascii.eqb c sep); [done|].
  assert (-1 ≤ strings.Index s sep)%Z as Hge.
  { clear. induction s as [|c s IH]; simpl; [done|].
    destruct (Ascii.eqb c sep); [done|]. case_decide; lia. }
  case_decide as Hi.
  - apply IH in Hi as ->. done.
  - split; [lia|]. destruct (strings.cut s sep) as [[a b]|]; [done|].
    intros _. by destruct Hi; apply IH.
Qed.

(** [SplitN] with [n = 2] gives one piece exactly when there is no separator. *)
Lemma SplitN_2 s sep :
  match strings.cut s sep with
  | Some (a, b) => strings.SplitN s sep 2 = [a; b]
  | None => strings.SplitN s sep 2 = [s]
  end.
Proof. simpl. by destruct (strings.cut s sep) as [[a b]|]. Qed.

Lemma relay_registered pool conn nick text :
  registered pool conn →
  relay pool (RemoteAddr conn) nick text ≡ₚ fan_out pool conn nick text.
Proof.
  intros Hreg. unfold relay, fan_out, others.
  rewrite <- (map_to_list_delete _ _ _ Hreg). simpl.
  unfold relay_line at 1. rewrite decide_True by done. constructor.
  rewrite map_map. apply Permutation_refl'.
  apply map_ext_in. intros [n c] Hin%list_elem_of_In%elem_of_map_to_list. simpl.
  f_equal. unfold relay_line. rewrite decide_False; [done|].
  intros ->. by rewrite lookup_delete_eq in Hin.
Qed.

(** X17: both earlier revisions relay a line that is no command as the
    design has it, whatever the nickname state: one self-framed copy to the
    sender and one copy attributed to the sender's display name to every
    other roster entry. *)
Theorem earlier_revisions_relay_under_display_name pool m :
  registered pool (connection m) →
  strings.HasPrefix (message m) "/nick " = false →
  (∃ out,
     part_001.handleMessage pool m = Done pool out
     ∧ out ≡ₚ fan_out pool (connection m) (getNames pool m).2 (message m))
  ∧ (strings.HasPrefix (message m) "/privmsg" = false →
     ∃ out,
       part_000.handleMessage pool m = Done pool out
       ∧ out ≡ₚ fan_out pool (connection m) (getNames pool m).2 (message m)).
Proof.
  intros Hreg Hnick. split.
  - unfold part_001.handleMessage. rewrite Hnick.
    eexists. split; [done|]. by apply relay_registered.
  - intros Hpriv. unfold part_000.handleMessage.
    rewrite Hnick. unfold part_000.privmsg_or_relay. rewrite Hpriv.
    eexists. split; [done|]. by apply relay_registered.
Qed.

Lemma earlier_revisions_relay_under_display_name_witness :
  (∃ out,
     part_001.handleMessage pool_bob_B (mkMessage connA "hello") = Done pool_bob_B out
     ∧ out ≡ₚ [(connA, "> hello" +:+ nl); (connB, "bob> hello" +:+ nl)])
  ∧ (∃ out,
     part_000.handleMessage pool_bob_B (mkMessage connA "hello") = Done pool_bob_B out
     ∧ out ≡ₚ [(connA, "> hello" +:+ nl); (connB, "bob> hello" +:+ nl)]).
Proof.
  assert (E : fan_out pool_bob_B (connection (mkMessage connA "hello"))
                (getNames pool_bob_B (mkMessage connA "hello")).2
                (message (mkMessage connA "hello"))
              = [(connA, "> hello" +:+ nl); (connB, "bob> hello" +:+ nl)])
    by (vm_compute; reflexivity).
  destruct (earlier_revisions_relay_under_display_name pool_bob_B (mkMessage connA "hello"))
    as [(out1 & Hrun1 & Hout1) Hold]; [vm_compute; reflexivity | reflexivity |].
  destruct Hold as (out0 & Hrun0 & Hout0); [reflexivity|].
  rewrite E in Hout1, Hout0.
  split.
  - exists out1. split; [exact Hrun1 | exact Hout1].
  - exists out0. split; [exact Hrun0 | exact Hout0].
Defined.

Lemma nick_prefix_not_privmsg text :
  strings.HasPrefix text "/nick " = true → strings.HasPrefix text "/privmsg" = false.
Proof.
  intros [x ->]%HasPrefix_inv. unfold strings.HasPrefix. simpl.
  by destruct (ascii_dec "p" "n").
Qed.

(** The announcement of a nickname change is never taken for a [/privmsg]. *)
Lemma announcement_relayed pool m name nick newNick :
  part_000.privmsg_or_relay pool m name nick ("Nickname changed to '" +:+ newNick +:+ "'")
  = Done pool (relay pool name nick ("Nickname changed to '" +:+ newNick +:+ "'")).
Proof. reflexivity. Qed.

(** X18: in [part_000] the test for spaces reads the sender's current
    display name, not the requested nickname.  So a request is accepted
    whenever the current display name has no space and the requested text
    resolves to nobody, spaces in it or not; both maps are written, and the
    change is announced to the whole roster under the old display name. *)
Theorem part_000_nick_accepts_any_text pool m newNick :
  registered pool (connection m) →
  message m = "/nick " +:+ newNick →
  strings.Index (getNames pool m).2 space = (-1)%Z →
  connectionFromNickOrName pool newNick = None →
  let pool' :=
    {| connections := connections pool;
       nicks := <[RemoteAddr (connection m) := newNick]> (nicks pool);
       rnicks := <[newNick := RemoteAddr (connection m)]> (rnicks pool) |} in
  ∃ out,
    part_000.handleMessage pool m = Done pool' out
    ∧ out ≡ₚ fan_out pool' (connection m) (getNames pool m).2
               ("Nickname changed to '" +:+ newNick +:+ "'").
Proof.
  intros Hreg Htext Hidx Hfree pool'. unfold part_000.handleMessage.
  rewrite Htext, HasPrefix_app, TrimPrefix_app.
  unfold getNames in Hidx; cbn [snd] in Hidx.
  rewrite decide_False by (by intros []). rewrite Hfree.
  rewrite announcement_relayed. eexists. split; [done|].
  by apply (relay_registered pool').
Qed.

Lemma part_000_nick_accepts_any_text_witness :
  ∃ pool' out,
    part_000.handleMessage pool_ABC (mkMessage connA "/nick a b") = Done pool' out
    ∧ nicks pool' !! addrA = Some "a b"
    ∧ rnicks pool' !! "a b" = Some addrA
    ∧ out ≡ₚ [(connA, "> Nickname changed to 'a b'" +:+ nl);
              (connB, addrA +:+ "> Nickname changed to 'a b'" +:+ nl);
              (connC, addrA +:+ "> Nickname changed to 'a b'" +:+ nl)].
Proof.
  destruct (part_000_nick_accepts_any_text pool_ABC (mkMessage connA "/nick a b") "a b")
    as (out & Hrun & Hout);
    [vm_compute; reflexivity | reflexivity | vm_compute; reflexivity
    | vm_compute; reflexivity |].
  eexists _, out. split; [exact Hrun|].
  split; [vm_compute; reflexivity|]. split; [vm_compute; reflexivity|].
  rewrite Hout.
  match goal with |- ?l ≡ₚ _ =>
    assert (E : l = [(connA, "> Nickname changed to 'a b'" +:+ nl);
                     (connC, addrA +:+ "> Nickname changed to 'a b'" +:+ nl);
                     (connB, addrA +:+ "> Nickname changed to 'a b'" +:+ nl)])
      by (vm_compute; reflexivity);
    rewrite E
  end.
  constructor. apply perm_swap.
Defined.

(** The sender's nickname, once it holds a space, refuses every request. *)
Lemma part_000_space_in_current_nick pool m nick newNick :
  nicks pool !! RemoteAddr (connection m) = Some nick →
  strings.Index nick space ≠ (-1)%Z →
  message m = "/nick " +:+ newNick →
  part_000.handleMessage pool m
  = Done pool [(connection m, "Nickname '" +:+ newNick +:+ "' cannot have spaces in" +:+ nl)].
Proof.
  intros Hn Hidx Htext. unfold part_000.handleMessage.
  rewrite Htext, HasPrefix_app, TrimPrefix_app, Hn. cbn [default].
  assert (nick ≠ "") as Hne by (intros ->; by apply Hidx).
  rewrite (decide_False (P := nick = "")) by done.
  by rewrite decide_True.
Qed.

(** X19: a nickname with a space locks its holder out.  [part_000] accepts
    it (the display name then in force has no space), and from then on every
    nickname request of that connection, whatever it asks for, is answered
    with the notice about spaces and changes nothing. *)
Theorem part_000_spaced_nickname_locks_out pool conn newNick :
  registered pool conn →
  strings.Index (getNames pool (mkMessage conn ("/nick " +:+ newNick))).2 space = (-1)%Z →
  connectionFromNickOrName pool newNick = None →
  strings.Index newNick space ≠ (-1)%Z →
  ∃ pool' out,
    part_000.handleMessage pool (mkMessage conn ("/nick " +:+ newNick)) = Done pool' out
    ∧ ∀ later,
        part_000.handleMessage pool' (mkMessage conn ("/nick " +:+ later))
        = Done pool' [(conn, "Nickname '" +:+ later +:+ "' cannot have spaces in" +:+ nl)].
Proof.
  intros Hreg Hidx Hfree Hspace.
  set (m := mkMessage conn ("/nick " +:+ newNick)) in *.
  set (pool' :=
    {| connections := connections pool;
       nicks := <[RemoteAddr conn := newNick]> (nicks pool);
       rnicks := <[newNick := RemoteAddr conn]> (rnicks pool) |}).
  exists pool', (relay pool' (RemoteAddr conn) (getNames pool m).2
                   ("Nickname changed to '" +:+ newNick +:+ "'")).
  split.
  - unfold part_000.handleMessage. cbn [message connection m].
    rewrite HasPrefix_app, TrimPrefix_app.
    unfold getNames in Hidx; cbn [snd connection m] in Hidx.
    rewrite decide_False by (by intros []). rewrite Hfree.
    by rewrite announcement_relayed.
  - intros later.
    apply (part_000_space_in_current_nick pool' (mkMessage conn ("/nick " +:+ later))
             newNick later); [|done|done].
    simpl. apply lookup_insert_eq.
Qed.

Lemma part_000_spaced_nickname_locks_out_witness :
  ∃ pool' out,
    part_000.handleMessage pool_ABC (mkMessage connA "/nick a b") = Done pool' out
    ∧ part_000.handleMessage pool' (mkMessage connA "/nick ab")
      = Done pool' [(connA, "Nickname 'ab' cannot have spaces in" +:+ nl)].
Proof.
  destruct (part_000_spaced_nickname_locks_out pool_ABC connA "a b")
    as (pool' & out & Hrun & Hlater);
    [vm_compute; reflexivity | vm_compute; reflexivity | vm_compute; reflexivity
    | vm_compute; discriminate |].
  exists pool', out. split; [exact Hrun | exact (Hlater "ab")].
Defined.

(** X20: [part_000] stops with a panic exactly on a line that starts with
    [/privmsg] and has no space left once the prefix [/privmsg ] is
    trimmed: [SplitN] then yields one piece and [parts[1]] is out of range.
    Every other line is handled to the end. *)
Theorem part_000_panics_iff pool m :
  part_000.handleMessage pool m = Panic
  ↔ strings.HasPrefix (message m) "/privmsg" = true
    ∧ strings.Index (strings.TrimPrefix (message m) "/privmsg ") space = (-1)%Z.
Proof.
  unfold part_000.handleMessage.
  destruct (strings.HasPrefix (message m) "/nick ") eqn:Hnick.
  - rewrite (nick_prefix_not_privmsg _ Hnick).
    split; [|by intros [? _]].
    case_decide; [done|].
    destruct (connectionFromNickOrName _ _); [done|].
    by rewrite announcement_relayed.
  - unfold part_000.privmsg_or_relay.
    destruct (strings.HasPrefix (message m) "/privmsg"); [|split; [done|by intros [? _]]].
    rewrite Index_cut.
    pose proof (SplitN_2 (strings.TrimPrefix (message m) "/privmsg ") space) as Hsplit.
    destruct (strings.cut _ _) as [[a b]|]; rewrite Hsplit.
    + split; [|by intros [_ ?]].
      destruct (connectionFromNickOrName pool a); [case_decide|]; done.
    + done.
Qed.

(** X21: [part_001] stops with a panic exactly on a request for a nickname
    whose reverse entry names an identity that is not in the roster: the
    looked-up [remote] is nil and [remote.RemoteAddr()] dereferences it.
    Every other line is handled to the end. *)
Theorem part_001_panics_iff pool m :
  part_001.handleMessage pool m = Panic
  ↔ strings.HasPrefix (message m) "/nick " = true
    ∧ ∃ id, rnicks pool !! strings.TrimPrefix (message m) "/nick " = Some id
            ∧ id ≠ "" ∧ connections pool !! id = None.
Proof.
  unfold part_001.handleMessage. cbv zeta.
  destruct (strings.HasPrefix (message m) "/nick ");
    [|split; [done | by intros [? _]]].
  destruct (rnicks pool !! strings.TrimPrefix (message m) "/nick ") as [id|];
    cbn [default from_option Datatypes.id].
  - case_decide as Hid.
    + destruct (connections pool !! id) eqn:Hc.
      * split; [done|]. intros (_ & id' & [= <-] & _ & Hnone). by rewrite Hnone in Hc.
      * split; [|done]. intros _. split; [done|]. by exists id.
    + split; [done|]. intros (_ & id' & [= <-] & Hne & _). by destruct Hid.
  - rewrite decide_False by (by intros []). split; [done|].
    by intros (_ & id' & ? & _).
Qed.

(** X22: [part_001] looks a requested nickname up in the reverse map only.
    A text with no reverse entry is accepted whatever it is, the address of
    another roster entry included; both maps are written, and the change is
    announced to the whole roster under the old display name. *)
Theorem part_001_nick_checks_reverse_map_only pool m nick :
  registered pool (connection m) →
  message m = "/nick " +:+ nick →
  rnicks pool !! nick = None →
  let pool' :=
    {| connections := connections pool;
       nicks := <[RemoteAddr (connection m) := nick]> (nicks pool);
       rnicks := <[nick := RemoteAddr (connection m)]> (rnicks pool) |} in
  ∃ out,
    part_001.handleMessage pool m = Done pool' out
    ∧ out ≡ₚ fan_out pool (connection m) (getNames pool m).2
               ("Nickname changed to '" +:+ nick +:+ "'").
Proof.
  intros Hreg Htext Hfree pool'. unfold part_001.handleMessage.
  rewrite Htext, HasPrefix_app, TrimPrefix_app, Hfree. cbn [default from_option Datatypes.id].
  rewrite decide_False by (by intros []).
  eexists. split; [done|]. by apply relay_registered.
Qed.

Lemma part_001_nick_checks_reverse_map_only_witness :
  ∃ pool' out,
    part_001.handleMessage pool_ABC (mkMessage connA ("/nick " +:+ addrB))
    = Done pool' out
    ∧ getNames pool' (mkMessage connA "hello") = (addrA, addrB)
    ∧ length out = 3.
Proof.
  destruct (part_001_nick_checks_reverse_map_only pool_ABC
              (mkMessage connA ("/nick " +:+ addrB)) addrB)
    as (out & Hrun & Hout);
    [vm_compute; reflexivity | reflexivity | vm_compute; reflexivity |].
  eexists _, out. split; [exact Hrun|]. split; [vm_compute; reflexivity|].
  rewrite Hout. unfold fan_out, others. cbn [length]. rewrite length_map.
  vm_compute. reflexivity.
Defined.

(** X23: in [part_001] the nickname of a user who has left brings the server
    down.  A connection takes a free nickname and disconnects; its reverse
    entry stays ([Run] registers and unregisters as in [src/main.go]).  When
    any connection from another address then asks for that nickname, the
    handler panics. *)
Theorem part_001_nickname_of_departed_user_crashes pool conn other nick :
  RemoteAddr conn ≠ "" →
  RemoteAddr other ≠ RemoteAddr conn →
  rnicks pool !! nick = None →
  ∃ pool' out,
    part_001.handleMessage pool (mkMessage conn ("/nick " +:+ nick)) = Done pool' out
    ∧ part_001.handleMessage (register (unregister pool' conn) other)
        (mkMessage other ("/nick " +:+ nick)) = Panic.
Proof.
  intros Hne Hother Hfree. eexists _, _. split.
  - unfold part_001.handleMessage. cbn [message connection].
    rewrite HasPrefix_app, TrimPrefix_app, Hfree. cbn [default from_option Datatypes.id].
    by rewrite decide_False by (by intros []).
  - unfold part_001.handleMessage. cbn [message connection].
    rewrite HasPrefix_app, TrimPrefix_app.
    cbn [register unregister connections nicks rnicks].
    rewrite lookup_insert_eq. cbn [default from_option Datatypes.id].
    rewrite decide_True by done.
    by rewrite lookup_insert_ne, lookup_delete_eq.
Qed.

Lemma part_001_nickname_of_departed_user_crashes_witness :
  ∃ pool' out,
    part_001.handleMessage pool_ABC (mkMessage connA "/nick bob") = Done pool' out
    ∧ part_001.handleMessage (register (unregister pool' connA) (mkConn 7 "10.0.0.7:5000"))
        (mkMessage (mkConn 7 "10.0.0.7:5000") "/nick bob") = Panic.
Proof.
  apply (part_001_nickname_of_departed_user_crashes pool_ABC connA
           (mkConn 7 "10.0.0.7:5000") "bob");
    [discriminate | discriminate | vm_compute; reflexivity].
Defined.
